(** * Synthesizer.jsx: held notes, pitch resolution, recording and MP3 conversion

    A shallow embedding of the [Synthesizer] component
    (src/mysynth/src/Components/Synthesizer.jsx).  The component's hooks
    ([useState], [useRef]) become the fields of one record, every handler
    becomes a function from the component state to the next one, and the calls
    a handler makes on the tone generator are appended to the generator's own
    call log, in order. *)

From Stdlib Require Import ZArith Strings.Byte Strings.Ascii.
From stdpp Require Import base decidable option list strings pretty gmap.
From Equations Require Import Equations.

Open Scope Z_scope.

(** ** The objects the component holds *)

(** The two calls the component makes on [synth.current]. *)
Inductive VoiceCall :=
| TriggerAttack (pitch : string)
| TriggerRelease (pitch : string).

(** [Tone.Synth]: the calls it has received so far, and the stream
    destinations it has been connected to with [connect]. *)
Record Synth := {
  calls : list VoiceCall;
  outputs : list nat;
}.

(** [AudioContext.state], as far as [initializeAudioContext] reads it. *)
Inductive ContextState := Running | Suspended.

(** [MediaRecorder.state]. *)
Inductive RecorderState := Inactive | Recording.

(** A [MediaRecorder] object: the stream it records and its state.  The
    [ondataavailable] and [onstop] handlers [startRecording] installs are the
    same closures for every recorder; they are the functions [ondataavailable]
    and [onstop] below. *)
Record MediaRecorder := {
  rec_stream : nat;
  rec_state : RecorderState;
}.

(** [settings]: the tone parameters (oscillator, envelope, filter) are
    floating-point values that only the tone generator reads; the handlers
    modelled here read and write [octave] alone.  [octave] is a JavaScript
    number, a double; it starts at 4 and changes by unit steps only, so it
    is always an integer-valued double, kept here as that integer. *)
Record Settings := {
  octave : Z;
}.

(** The component: [settings] is the [useState] cell, the next five fields are
    the [useRef] cells ([mediaRecorder] holds the index of the current recorder
    in [recorders]), [streams] counts the stream destinations created so far
    and [recorders] is the store of all [MediaRecorder] objects created so
    far, the replaced ones included. *)
Record Component := {
  settings : Settings;
  audioContext : option ContextState;
  mediaRecorder : option nat;
  audioChunks : list (list byte);
  activeNotes : gset string;
  synth : option Synth;
  streams : nat;
  recorders : list MediaRecorder;
}.

Definition with_settings (s : Settings) (c : Component) : Component :=
  {| settings := s; audioContext := audioContext c;
     mediaRecorder := mediaRecorder c; audioChunks := audioChunks c;
     activeNotes := activeNotes c; synth := synth c;
     streams := streams c; recorders := recorders c |}.

Definition with_activeNotes (a : gset string) (c : Component) : Component :=
  {| settings := settings c; audioContext := audioContext c;
     mediaRecorder := mediaRecorder c; audioChunks := audioChunks c;
     activeNotes := a; synth := synth c;
     streams := streams c; recorders := recorders c |}.

Definition with_synth (s : option Synth) (c : Component) : Component :=
  {| settings := settings c; audioContext := audioContext c;
     mediaRecorder := mediaRecorder c; audioChunks := audioChunks c;
     activeNotes := activeNotes c; synth := s;
     streams := streams c; recorders := recorders c |}.

Definition with_audioChunks (l : list (list byte)) (c : Component) : Component :=
  {| settings := settings c; audioContext := audioContext c;
     mediaRecorder := mediaRecorder c; audioChunks := l;
     activeNotes := activeNotes c; synth := synth c;
     streams := streams c; recorders := recorders c |}.

Definition with_audioContext (a : option ContextState) (c : Component) : Component :=
  {| settings := settings c; audioContext := a;
     mediaRecorder := mediaRecorder c; audioChunks := audioChunks c;
     activeNotes := activeNotes c; synth := synth c;
     streams := streams c; recorders := recorders c |}.

(** The component once mounted: the initial hook values, and the synth the
    first run of the effect creates (lines 29-44). *)
Definition mounted : Component :=
  {| settings := {| octave := 4 |}; audioContext := None;
     mediaRecorder := None; audioChunks := [];
     activeNotes := ∅; synth := Some {| calls := []; outputs := [] |};
     streams := 0%nat; recorders := [] |}.

(** The calls the tone generator has received; none when there is no
    generator. *)
Definition voice_calls (c : Component) : list VoiceCall :=
  match synth c with
  | Some s => calls s
  | None => []
  end.

Definition is_attack (v : VoiceCall) : bool :=
  match v with TriggerAttack _ => true | TriggerRelease _ => false end.

(** Number of attack calls in a log. *)
Definition attacks (l : list VoiceCall) : nat := length (filter is_attack l).

Definition triggerAttack (pitch : string) (s : Synth) : Synth :=
  {| calls := calls s ++ [TriggerAttack pitch]; outputs := outputs s |}.

Definition triggerRelease (pitch : string) (s : Synth) : Synth :=
  {| calls := calls s ++ [TriggerRelease pitch]; outputs := outputs s |}.

(** ** Key codes, notes and pitches *)

(** [getNoteFromKeyCode] (lines 169-184): the [switch], case by case; [None]
    is JavaScript's [null]. *)
Definition getNoteFromKeyCode (keyCode : Z) : option string :=
  match keyCode with
  | 65 => Some "C"
  | 83 => Some "D"
  | 68 => Some "E"
  | 70 => Some "F"
  | 71 => Some "G"
  | 72 => Some "A"
  | 74 => Some "B"
  | 75 => Some "C#"
  | 76 => Some "D#"
  | 186 => Some "F#"
  | 222 => Some "G#"
  | _ => None
  end.

(** The case labels of that [switch], in source order. *)
Definition keyCodes : list Z := [65; 83; 68; 70; 71; 72; 74; 75; 76; 186; 222].

(** [getNoteWithOctave] (lines 165-167): the template literal
    [`${note}${settings.octave}`]; an integer prints in decimal, with a leading
    minus sign when negative. *)
Definition getNoteWithOctave (c : Component) (note : string) : string :=
  note +:+ pretty (octave (settings c)).

(** The result of a double-precision operation whose exact value is the
    integer [z]: the double nearest to [z], the one with the even significand
    when two are equally near.  Every integer up to 2^53 in magnitude is a
    double; beyond, only 53 significant bits are kept.  (A finite double plus
    or minus one never rounds to an infinity, so none is needed here.) *)
Definition roundToDouble (z : Z) : Z :=
  let a := Z.abs z in
  if a <=? 2 ^ 53 then z
  else
    let e := Z.log2 a - 52 in
    let q := a / 2 ^ e in
    let r := a mod 2 ^ e in
    let q' := if r <? 2 ^ (e - 1) then q
              else if 2 ^ (e - 1) <? r then q + 1
              else if Z.even q then q else q + 1 in
    Z.sgn z * (q' * 2 ^ e).

(** [handleOctaveChange] (lines 158-163): every direction other than ['up']
    steps down; [prevState.octave + 1] and [prevState.octave - 1] are
    double-precision operations. *)
Definition handleOctaveChange (direction : string) (c : Component) : Component :=
  with_settings
    {| octave := if String.eqb direction "up"
                 then roundToDouble (octave (settings c) + 1)
                 else roundToDouble (octave (settings c) - 1) |} c.

(** JavaScript truthiness of a value that is a string or [null]. *)
Definition truthy (v : option string) : bool :=
  match v with
  | Some s => negb (String.eqb s "")
  | None => false
  end.

(** [activeNotes.current.has(note)]. *)
Definition has (note : string) (a : gset string) : bool := bool_decide (note ∈ a).

(** ** The hardware-key handlers *)

(** [handleKeyDown] (lines 70-76). *)
Definition handleKeyDown (keyCode : Z) (c : Component) : Component :=
  let note := getNoteFromKeyCode keyCode in
  match note, synth c with
  | Some n, Some s =>
      if truthy note && negb (has n (activeNotes c)) then
        with_synth (Some (triggerAttack (getNoteWithOctave c n) s))
          (with_activeNotes ({[n]} ∪ activeNotes c) c)
      else c
  | _, _ => c
  end.

(** [handleKeyUp] (lines 78-84). *)
Definition handleKeyUp (keyCode : Z) (c : Component) : Component :=
  let note := getNoteFromKeyCode keyCode in
  match note, synth c with
  | Some n, Some s =>
      if truthy note && has n (activeNotes c) then
        with_synth (Some (triggerRelease (getNoteWithOctave c n) s))
          (with_activeNotes (activeNotes c ∖ {[n]}) c)
      else c
  | _, _ => c
  end.

(** ** The on-screen keyboard (lines 246-272) *)

(** The notes the buttons are rendered for. *)
Definition keyboardNotes : list string := ["C"; "D"; "E"; "F"; "G"; "A"; "B"].

Definition onMouseDown (note : string) (c : Component) : Component :=
  match synth c with
  | Some s => with_synth (Some (triggerAttack (getNoteWithOctave c note) s)) c
  | None => c
  end.

Definition onMouseUp (note : string) (c : Component) : Component :=
  match synth c with
  | Some s => with_synth (Some (triggerRelease (getNoteWithOctave c note) s)) c
  | None => c
  end.

Definition onTouchStart (note : string) (c : Component) : Component :=
  match synth c with
  | Some s => with_synth (Some (triggerAttack (getNoteWithOctave c note) s)) c
  | None => c
  end.

Definition onTouchEnd (note : string) (c : Component) : Component :=
  match synth c with
  | Some s => with_synth (Some (triggerRelease (getNoteWithOctave c note) s)) c
  | None => c
  end.

(** ** Recording (lines 95-130) *)

(** What a handler can raise.  The component has no [throw] of its own:
    [TypeError] is the runtime's error for a method call on [null], and the
    other two are the failures of the external encoder library as the
    specification names them. *)
Inductive Error := TypeError | DecodeError | FormatError.

Inductive Result (A : Type) :=
| Ok (a : A)
| Throw (e : Error).
Arguments Ok {A} a.
Arguments Throw {A} e.

(** [initializeAudioContext] (lines 95-101): a context is created when there
    is none, and resumed when it is suspended. *)
Definition initializeAudioContext (c : Component) : Component :=
  match audioContext c with
  | None => with_audioContext (Some Running) c
  | Some Suspended => with_audioContext (Some Running) c
  | Some Running => c
  end.

(** [startRecording] (lines 103-124).  The result is the component after the
    call, and the error the call raised, if any: [synth.current.connect] on a
    [null] synth is a [TypeError], raised after the audio context has been
    initialised and the stream destination created.  Otherwise a new
    [MediaRecorder] on a new stream destination is stored in
    [mediaRecorder.current] and started.  Nothing in the function reads the
    recorder that was there before, or [audioChunks]. *)
Definition startRecording (c : Component) : Component * option Error :=
  let c1 := initializeAudioContext c in
  let streamDestination := streams c1 in
  match synth c1 with
  | None =>
      ({| settings := settings c1; audioContext := audioContext c1;
          mediaRecorder := mediaRecorder c1; audioChunks := audioChunks c1;
          activeNotes := activeNotes c1; synth := None;
          streams := S (streams c1); recorders := recorders c1 |},
       Some TypeError)
  | Some s =>
      ({| settings := settings c1; audioContext := audioContext c1;
          mediaRecorder := Some (length (recorders c1));
          audioChunks := audioChunks c1;
          activeNotes := activeNotes c1;
          synth := Some {| calls := calls s;
                           outputs := outputs s ++ [streamDestination] |};
          streams := S (streams c1);
          recorders := recorders c1 ++
                         [{| rec_stream := streamDestination;
                             rec_state := Recording |}] |},
       None)
  end.

(** [mediaRecorder.current.ondataavailable] (lines 109-111). *)
Definition ondataavailable (data : list byte) (c : Component) : Component :=
  with_audioChunks (audioChunks c ++ [data]) c.

(** [MediaRecorder.stop()]: an inactive recorder stays as it is, a recording
    one becomes inactive (the browser then fires [dataavailable] and [stop]). *)
Definition recorder_stop (r : MediaRecorder) : MediaRecorder :=
  {| rec_stream := rec_stream r; rec_state := Inactive |}.

(** [stopRecording] (lines 126-130). *)
Definition stopRecording (c : Component) : Component :=
  match mediaRecorder c with
  | Some r =>
      {| settings := settings c; audioContext := audioContext c;
         mediaRecorder := mediaRecorder c; audioChunks := audioChunks c;
         activeNotes := activeNotes c; synth := synth c;
         streams := streams c;
         recorders := alter recorder_stop r (recorders c) |}
  | None => c
  end.

(** The session is capturing when the current recorder is recording. *)
Definition capturing (c : Component) : bool :=
  match mediaRecorder c with
  | Some r =>
      match recorders c !! r with
      | Some rec => match rec_state rec with Recording => true | Inactive => false end
      | None => false
      end
  | None => false
  end.

(** ** The encoder library

    [lamejs] is an external dependency; the component uses its header reader
    and its encoder object through these two interfaces. *)

(** The header object: the three fields [convertToMp3] reads, and the sample
    format (channel count and bit depth) the header declares. *)
Record WavHeader := {
  dataOffset : Z;
  dataLen : Z;
  sampleRate : Z;
  channels : Z;
  bitsPerSample : Z;
}.

(** [lamejs.WavHeader.readHeader]: the header it reads, or the error that ends
    [convertToMp3] when it reads none ([Throw TypeError] stands for a reader
    that returns no header object, since the property read on the next line
    then fails). *)
Class WavReader := {
  readHeader : list byte → Result WavHeader;
}.

(** [lamejs.Mp3Encoder]: the constructor (channels, sample rate, kbps) and the
    two methods; each method returns the encoder after the call and the bytes
    it produced.  [flush] takes no samples. *)
Class Mp3Codec := {
  Mp3Encoder : Type;
  newMp3Encoder : Z → Z → Z → Mp3Encoder;
  encodeBuffer : Mp3Encoder → list Z → Mp3Encoder * list byte;
  flush : Mp3Encoder → Mp3Encoder * list byte;
}.

(** ** Conversion (lines 132-151) *)

Definition u8 (b : byte) : Z := Z.of_N (Byte.to_N b).

(** [new Int16Array(wavBuffer, wav.dataOffset, wav.dataLen / 2)] where
    [wavBuffer] is a [Uint8Array] (line 118 passes [new Uint8Array(arrayBuffer)]).
    A typed-array constructor given a typed array copies it element by
    element, each byte becoming one 16-bit element, and does not use the
    second and third arguments; these are a byte offset and a length only when
    the first argument is an [ArrayBuffer]. *)
Definition Int16Array_of_Uint8Array (wavBuffer : list byte) (byteOffset len : Z) : list Z :=
  u8 <$> wavBuffer.

(** [samples.subarray(begin, end)]: both bounds are clamped to the length. *)
Definition subarray (samples : list Z) (b e : nat) : list Z :=
  take (e - b) (drop b samples).

Definition sampleBlockSize : nat := 1152.

Section Convert.
Context {reader : WavReader} {codec : Mp3Codec}.

(** The body of the [for] loop (lines 140-144): encode one chunk, and keep the
    output when it is not empty. *)
Definition encodeChunk (st : Mp3Encoder * list (list byte)) (sampleChunk : list Z)
  : Mp3Encoder * list (list byte) :=
  let '(mp3Encoder, mp3Data) := st in
  let '(mp3Encoder', mp3buf) := encodeBuffer mp3Encoder sampleChunk in
  (mp3Encoder', if bool_decide (0 < length mp3buf)%nat then mp3Data ++ [mp3buf] else mp3Data).

(** The [for] loop (lines 139-145), from index [i] on. *)
Equations? blockLoop (samples : list Z) (i : nat) (st : Mp3Encoder * list (list byte))
  : Mp3Encoder * list (list byte) by wf (length samples - i)%nat lt :=
  blockLoop samples i st with decide (i < length samples)%nat => {
    | left _ =>
        blockLoop samples (i + sampleBlockSize)
          (encodeChunk st (subarray samples i (i + sampleBlockSize)));
    | right _ => st }.
Proof. unfold sampleBlockSize. lia. Qed.

(** Lines 136-150: the encoder on [samples], then [flush]. *)
Definition encodeSamples (mp3Encoder : Mp3Encoder) (samples : list Z) : list (list byte) :=
  let '(mp3Encoder', mp3Data) := blockLoop samples 0 (mp3Encoder, []) in
  let '(_, mp3buf) := flush mp3Encoder' in
  if bool_decide (0 < length mp3buf)%nat then mp3Data ++ [mp3buf] else mp3Data.

(** [convertToMp3] (lines 132-151).  The only call that can fail is
    [readHeader]. *)
Definition convertToMp3 (wavBuffer : list byte) : Result (list (list byte)) :=
  match readHeader wavBuffer with
  | Throw e => Throw e
  | Ok wav =>
      let samples := Int16Array_of_Uint8Array wavBuffer (dataOffset wav) (dataLen wav / 2) in
      Ok (encodeSamples (newMp3Encoder 1 (sampleRate wav) 128) samples)
  end.

(** [mediaRecorder.current.onstop] (lines 113-121): the component after the
    handler, the raw buffer it built from the chunks, and either the frame
    sequence handed to [saveAs] (as a blob) or the error that ended the
    handler before [saveAs]. *)
Definition onstop (c : Component) : Component * list byte * Result (list (list byte)) :=
  let audioBlob := concat (audioChunks c) in
  let c' := with_audioChunks [] c in
  (c', audioBlob, convertToMp3 audioBlob).

End Convert.

(** The chunks the loop cuts [samples] into: chunk [k] is
    [samples.subarray(k * 1152, k * 1152 + 1152)], for every [k] with
    [k * 1152 < samples.length]. *)
Definition blockCount (n : nat) : nat := ((n + (sampleBlockSize - 1)) / sampleBlockSize)%nat.

Definition block (samples : list Z) (k : nat) : list Z :=
  subarray samples (k * sampleBlockSize) (k * sampleBlockSize + sampleBlockSize).

Definition blocks (samples : list Z) : list (list Z) :=
  block samples <$> seq 0 (blockCount (length samples)).

(** What the encoder returns, call by call, when it is given [chunks] one
    after the other and then flushed: one buffer per [encodeBuffer] call, and
    the buffer of [flush] last. *)
Fixpoint rawOutputs {codec : Mp3Codec} (mp3Encoder : Mp3Encoder) (chunks : list (list Z))
  : list (list byte) :=
  match chunks with
  | [] => [snd (flush mp3Encoder)]
  | sampleChunk :: rest =>
      snd (encodeBuffer mp3Encoder sampleChunk)
        :: rawOutputs (fst (encodeBuffer mp3Encoder sampleChunk)) rest
  end.

(** A header reader that reports another channel count and bit depth than
    [reader] does, and is [reader] otherwise. *)
Definition redeclare (ch bits : Z) (reader : WavReader) : WavReader :=
  {| readHeader buf :=
       match @readHeader reader buf with
       | Ok wav => Ok {| dataOffset := dataOffset wav; dataLen := dataLen wav;
                         sampleRate := sampleRate wav;
                         channels := ch; bitsPerSample := bits |}
       | Throw e => Throw e
       end |}.

(** ** A header reader after the specification *)

(** Little-endian value of a byte sequence. *)
Definition le (bs : list byte) : Z := foldr (λ b acc, u8 b + 256 * acc) 0 bs.

Definition bytes_at (buf : list byte) (off n : nat) : list byte := take n (drop off buf).

Definition tag_at (buf : list byte) (off : nat) (t : string) : bool :=
  bool_decide (Stdlib.Strings.String.string_of_list_byte (bytes_at buf off 4) = t).

(** Modelled from the spec: the container header parser of the external
    encoder library ([lamejs.WavHeader.readHeader]), whose code is not in the
    repository.  After section 4.5: it recovers the sample format, the byte
    offset of the sample data and the declared data length, and fails with
    [DecodeError] when the header is truncated, carries a wrong format tag, or
    declares more data than the buffer holds.  The layout is the canonical
    44-byte RIFF/WAVE header of linear PCM. *)
Definition parseWavHeader (buf : list byte) : Result WavHeader :=
  if bool_decide (length buf < 44)%nat then Throw DecodeError
  else if negb (tag_at buf 0 "RIFF" && tag_at buf 8 "WAVE" && tag_at buf 12 "fmt "
                && (le (bytes_at buf 20 2) =? 1) && tag_at buf 36 "data")
  then Throw DecodeError
  else if Z.of_nat (length buf) <? 44 + le (bytes_at buf 40 4) then Throw DecodeError
  else Ok {| dataOffset := 44;
             dataLen := le (bytes_at buf 40 4);
             sampleRate := le (bytes_at buf 24 4);
             channels := le (bytes_at buf 22 2);
             bitsPerSample := le (bytes_at buf 34 2) |}.

Definition specReader : WavReader := {| readHeader := parseWavHeader |}.

(** [lamejs.WavHeader.readHeader] as line 133 calls it.  The argument is the
    [Uint8Array] built on line 118; the library reads the header through the
    methods of a [DataView], which a [Uint8Array] does not have, so the call
    ends with a [TypeError] whatever the bytes are. *)
Definition uint8Reader : WavReader := {| readHeader _ := Throw TypeError |}.

(** Modelled from the spec: what section 4.5 says of the encoder, whose code
    (lamejs) is not in the repository.  A block call may return no bytes
    while the encoder buffers, and the flush drains whatever is still
    buffered, the final partial block included; so an encoder that was given
    at least one sample has returned a non-empty output by the end of the
    flush. *)
Definition drains (codec : Mp3Codec) : Prop :=
  ∀ (enc : Mp3Encoder) (chunks : list (list Z)),
    Exists (λ sampleChunk, sampleChunk ≠ []) chunks →
    Exists (λ mp3buf, mp3buf ≠ []) (rawOutputs enc chunks).

(** ** Concrete inputs *)

Definition byte_of_Z (v : Z) : byte :=
  default x00 (Byte.of_N (Z.to_N (v mod 256))).

(** A stand-in for the encoder, to run the conversion on concrete inputs: it
    keeps no state, [encodeBuffer] returns the low byte of every sample it is
    given and [flush] returns nothing. *)
Definition echoCodec : Mp3Codec :=
  {| Mp3Encoder := unit;
     newMp3Encoder _ _ _ := ();
     encodeBuffer _ sampleChunk := ((), byte_of_Z <$> sampleChunk);
     flush _ := ((), []) |}.

(** The [n] low bytes of [v], least significant first. *)
Fixpoint le_bytes (n : nat) (v : Z) : list byte :=
  match n with
  | O => []
  | S n' => byte_of_Z v :: le_bytes n' (v / 256)
  end.

(** A linear-PCM WAVE file with the canonical header. *)
Definition wavFile (ch rate bits : Z) (data : list byte) : list byte :=
  Stdlib.Strings.String.list_byte_of_string "RIFF" ++ le_bytes 4 (36 + Z.of_nat (length data))
  ++ Stdlib.Strings.String.list_byte_of_string "WAVE"
  ++ Stdlib.Strings.String.list_byte_of_string "fmt " ++ le_bytes 4 16 ++ le_bytes 2 1
  ++ le_bytes 2 ch ++ le_bytes 4 rate ++ le_bytes 4 (rate * ch * bits / 8)
  ++ le_bytes 2 (ch * bits / 8) ++ le_bytes 2 bits
  ++ Stdlib.Strings.String.list_byte_of_string "data" ++ le_bytes 4 (Z.of_nat (length data))
  ++ data.

(** Four bytes of silence declared as stereo, 16 bits, 44100 Hz. *)
Definition stereoWav : list byte := wavFile 2 44100 16 (replicate 4 x00).

(** Four bytes of silence declared as mono, 8 bits, 44100 Hz. *)
Definition eightBitWav : list byte := wavFile 1 44100 8 (replicate 4 x00).

(** One second of 16-bit mono silence at 44100 Hz, as a WAVE file: the
    header and 88200 zero bytes. *)
Definition oneSecondWav : list byte := wavFile 1 44100 16 (replicate (Z.to_nat 88200) x00).

(** One second of mono silence at 44100 Hz, as a sample array. *)
Definition oneSecondOfSilence : list Z := replicate (Z.to_nat 44100) 0.

(** The component after one [startRecording] from the mounted state. *)
Definition recordingOnce : Component := fst (startRecording mounted).

(** ... with the note C held through key code 65. *)
Definition holdingC : Component := handleKeyDown 65 mounted.

(** ** The component as an event-driven machine *)

Definition is_release (v : VoiceCall) : bool :=
  match v with TriggerAttack _ => false | TriggerRelease _ => true end.

(** Number of release calls in a log. *)
Definition releases (l : list VoiceCall) : nat := length (filter is_release l).

(** The effect of lines 27-67, on the component's own fields: the first run
    creates the synth; a later run, after a settings change, calls
    [synth.current.set] on the synth that is there, which updates tone
    parameters only. *)
Definition runEffect (c : Component) : Component :=
  match synth c with
  | None => with_synth (Some {| calls := []; outputs := [] |}) c
  | Some _ => c
  end.

(** What can happen to a mounted component: the two window key events, the
    four events of an on-screen key, a click on an octave button, a click on
    one of the two recording buttons, the two events of a recorder, and a
    re-run of the effect. *)
Inductive Event :=
| KeyDown (keyCode : Z)
| KeyUp (keyCode : Z)
| MouseDown (note : string)
| MouseUp (note : string)
| TouchStart (note : string)
| TouchEnd (note : string)
| OctaveChange (direction : string)
| StartRecording
| StopRecording
| DataAvailable (data : list byte)
| Stop
| Effect.

Section Events.
Context {reader : WavReader} {codec : Mp3Codec}.

(** The handler of each event, on the component. *)
Definition step (e : Event) (c : Component) : Component :=
  match e with
  | KeyDown keyCode => handleKeyDown keyCode c
  | KeyUp keyCode => handleKeyUp keyCode c
  | MouseDown note => onMouseDown note c
  | MouseUp note => onMouseUp note c
  | TouchStart note => onTouchStart note c
  | TouchEnd note => onTouchEnd note c
  | OctaveChange direction => handleOctaveChange direction c
  | StartRecording => fst (startRecording c)
  | StopRecording => stopRecording c
  | DataAvailable data => ondataavailable data c
  | Stop => fst (fst (onstop c))
  | Effect => runEffect c
  end.

(** The events of a list, handled one after the other. *)
Definition run (events : list Event) (c : Component) : Component :=
  foldl (λ c e, step e c) c events.

End Events.

(** The octave step of an event: that of the button clicked, none for any
    other event. *)
Definition octaveStep (e : Event) : Z :=
  match e with
  | OctaveChange direction => if String.eqb direction "up" then 1 else -1
  | _ => 0
  end.

(** The attacks an on-screen key adds beyond its releases: one per mouse-down
    or touch-start, minus one per mouse-up or touch-end. *)
Definition buttonNet (e : Event) : Z :=
  match e with
  | MouseDown _ | TouchStart _ => 1
  | MouseUp _ | TouchEnd _ => -1
  | _ => 0
  end.

Definition sumZ {A} (f : A → Z) (l : list A) : Z := foldr (λ x acc, f x + acc) 0 l.

Definition isStop (e : Event) : bool :=
  match e with Stop => true | _ => false end.

(** The chunks delivered after the last [Stop] event of a list, in order
    ([existsb isStop] tells whether a list has a [Stop] event). *)
Fixpoint sinceLastStop (events : list Event) : list (list byte) :=
  match events with
  | [] => []
  | Stop :: rest => sinceLastStop rest
  | DataAvailable data :: rest =>
      if existsb isStop rest then sinceLastStop rest
      else data :: sinceLastStop rest
  | _ :: rest => sinceLastStop rest
  end.

(** The notes of the key table. *)
Definition keyNotes : list string := omap getNoteFromKeyCode keyCodes.

(** Events of the keys and the octave buttons, and events of the recording
    buttons and of the recorders. *)
Definition isNoteEvent (e : Event) : bool :=
  match e with
  | KeyDown _ | KeyUp _ | MouseDown _ | MouseUp _ | TouchStart _ | TouchEnd _
  | OctaveChange _ => true
  | _ => false
  end.

Definition isRecordingEvent (e : Event) : bool :=
  match e with
  | StartRecording | StopRecording | DataAvailable _ | Stop => true
  | _ => false
  end.

(** What the recording handlers work on, and what the key and octave handlers
    work on. *)
Definition recordingSide (c : Component) :=
  (audioContext c, mediaRecorder c, audioChunks c, streams c, recorders c,
   outputs <$> synth c).

Definition noteSide (c : Component) :=
  (settings c, activeNotes c, voice_calls c).

(** The shape of a component that has been mounted: there is a synth, it is
    connected to one stream destination per recorder created (destination
    [i] is the one of recorder [i]), and the current recorder is the last
    one created. *)
Definition wellFormed (c : Component) : Prop :=
  (∃ s, synth c = Some s ∧ outputs s = seq 0 (length (recorders c)))
  ∧ streams c = length (recorders c)
  ∧ mediaRecorder c
    = match length (recorders c) with O => None | S n => Some n end
  ∧ (∀ i rec, recorders c !! i = Some rec → rec_stream rec = i).

(** * Properties *)

Example getNoteWithOctave_mounted : getNoteWithOctave mounted "C#" = "C#4".
Proof. reflexivity. Qed.

Example getNoteWithOctave_negative :
  getNoteWithOctave
    (handleOctaveChange "down" (with_settings {| octave := 0 |} mounted)) "A" = "A-1".
Proof. reflexivity. Qed.

Example press_C_then_D :
  voice_calls (handleKeyUp 83 (handleKeyUp 65 (handleKeyDown 83 (handleKeyDown 65 mounted))))
  = [TriggerAttack "C4"; TriggerAttack "D4"; TriggerRelease "C4"; TriggerRelease "D4"].
Proof. reflexivity. Qed.

Example keyboard_buttons_while_holding_C :
  Forall (λ note, voice_calls (onMouseDown note holdingC)
                  = [TriggerAttack "C4"; TriggerAttack (note +:+ "4")])
    keyboardNotes.
Proof. repeat constructor. Qed.

Example parse_stereoWav :
  parseWavHeader stereoWav
  = Ok {| dataOffset := 44; dataLen := 4; sampleRate := 44100;
          channels := 2; bitsPerSample := 16 |}.
Proof. vm_compute. reflexivity. Qed.

Example parse_eightBitWav :
  parseWavHeader eightBitWav
  = Ok {| dataOffset := 44; dataLen := 4; sampleRate := 44100;
          channels := 1; bitsPerSample := 8 |}.
Proof. vm_compute. reflexivity. Qed.

Example parse_empty : parseWavHeader [] = Throw DecodeError.
Proof. reflexivity. Qed.

Example blocks_oneSecond :
  length (blocks oneSecondOfSilence) = 39%nat
  ∧ (length <$> last (blocks oneSecondOfSilence)) = Some 324%nat.
Proof. vm_compute. split; reflexivity. Qed.

(** ** Key codes *)

Lemma getNoteFromKeyCode_unmapped (keyCode : Z) :
  keyCode ∉ keyCodes → getNoteFromKeyCode keyCode = None.
Proof.
  unfold keyCodes. rewrite !not_elem_of_cons. intros H.
  destruct keyCode as [|p|p]; try reflexivity.
  do 8 (try (destruct p as [p|p|]; try reflexivity)); exfalso; intuition congruence.
Qed.

Lemma getNoteFromKeyCode_mapped (keyCode : Z) :
  keyCode ∈ keyCodes → ∃ n, getNoteFromKeyCode keyCode = Some n ∧ truthy (Some n) = true.
Proof.
  unfold keyCodes. rewrite !elem_of_cons, elem_of_nil.
  intros H. destruct_or!; subst; try done; eexists; (split; reflexivity).
Qed.

Lemma getNoteFromKeyCode_truthy (keyCode : Z) (n : string) :
  getNoteFromKeyCode keyCode = Some n → truthy (getNoteFromKeyCode keyCode) = true.
Proof.
  intros Hn. destruct (decide (keyCode ∈ keyCodes)) as [Hin|Hout].
  - destruct (getNoteFromKeyCode_mapped _ Hin) as (m & Hm & Ht). by rewrite Hm.
  - rewrite (getNoteFromKeyCode_unmapped _ Hout) in Hn. discriminate.
Qed.

Lemma getNoteFromKeyCode_inj (k1 k2 : Z) (n : string) :
  getNoteFromKeyCode k1 = Some n → getNoteFromKeyCode k2 = Some n → k1 = k2.
Proof.
  intros H1 H2.
  destruct (decide (k1 ∈ keyCodes)) as [Hin1|Hout];
    [|rewrite (getNoteFromKeyCode_unmapped _ Hout) in H1; discriminate].
  destruct (decide (k2 ∈ keyCodes)) as [Hin2|Hout];
    [|rewrite (getNoteFromKeyCode_unmapped _ Hout) in H2; discriminate].
  unfold keyCodes in Hin1, Hin2.
  rewrite !elem_of_cons, elem_of_nil in Hin1.
  rewrite !elem_of_cons, elem_of_nil in Hin2.
  destruct_or!; subst; try done; simpl in H1, H2; congruence.
Qed.

(** ** The held-note guard *)

Lemma handleKeyDown_held (c : Component) (keyCode : Z) (n : string) :
  getNoteFromKeyCode keyCode = Some n → n ∈ activeNotes c → handleKeyDown keyCode c = c.
Proof.
  intros Hn Hheld. unfold handleKeyDown, has. rewrite Hn.
  destruct (synth c); [|done].
  rewrite (bool_decide_eq_true_2 _ Hheld). by rewrite andb_false_r.
Qed.

Lemma handleKeyDown_fresh (c : Component) (s : Synth) (keyCode : Z) (n : string) :
  getNoteFromKeyCode keyCode = Some n → synth c = Some s → n ∉ activeNotes c →
  handleKeyDown keyCode c
  = with_synth (Some (triggerAttack (getNoteWithOctave c n) s))
      (with_activeNotes ({[n]} ∪ activeNotes c) c).
Proof.
  intros Hn Hs Hfree. unfold handleKeyDown, has.
  pose proof (getNoteFromKeyCode_truthy _ _ Hn) as Ht.
  rewrite Hn in Ht |- *. rewrite Hs, Ht.
  by rewrite (bool_decide_eq_false_2 _ Hfree).
Qed.

Lemma handleKeyUp_free (c : Component) (keyCode : Z) (n : string) :
  getNoteFromKeyCode keyCode = Some n → n ∉ activeNotes c → handleKeyUp keyCode c = c.
Proof.
  intros Hn Hfree. unfold handleKeyUp, has. rewrite Hn.
  destruct (synth c); [|done].
  rewrite (bool_decide_eq_false_2 _ Hfree). by rewrite andb_false_r.
Qed.

Lemma handleKeyUp_held (c : Component) (s : Synth) (keyCode : Z) (n : string) :
  getNoteFromKeyCode keyCode = Some n → synth c = Some s → n ∈ activeNotes c →
  handleKeyUp keyCode c
  = with_synth (Some (triggerRelease (getNoteWithOctave c n) s))
      (with_activeNotes (activeNotes c ∖ {[n]}) c).
Proof.
  intros Hn Hs Hheld. unfold handleKeyUp, has.
  pose proof (getNoteFromKeyCode_truthy _ _ Hn) as Ht.
  rewrite Hn in Ht |- *. rewrite Hs, Ht.
  by rewrite (bool_decide_eq_true_2 _ Hheld).
Qed.

Lemma handleKeyDown_unmapped (c : Component) (keyCode : Z) :
  getNoteFromKeyCode keyCode = None → handleKeyDown keyCode c = c.
Proof. intros Hn. unfold handleKeyDown. by rewrite Hn. Qed.

Lemma handleKeyUp_unmapped (c : Component) (keyCode : Z) :
  getNoteFromKeyCode keyCode = None → handleKeyUp keyCode c = c.
Proof. intros Hn. unfold handleKeyUp. by rewrite Hn. Qed.

Lemma attacks_app (l1 l2 : list VoiceCall) :
  attacks (l1 ++ l2) = (attacks l1 + attacks l2)%nat.
Proof. unfold attacks. by rewrite filter_app, length_app. Qed.

(** C1: a key-down for a note that is already held changes nothing (no attack,
    same held-note set); so a second key-down right after a first one is
    always a no-op, and two key-downs in a row for a note that was not held
    add exactly one attack call, for the pitch at the current octave. *)
Theorem handleKeyDown_held_is_noop (c : Component) (keyCode : Z) (n : string) :
  getNoteFromKeyCode keyCode = Some n →
  (n ∈ activeNotes c → handleKeyDown keyCode c = c)
  ∧ handleKeyDown keyCode (handleKeyDown keyCode c) = handleKeyDown keyCode c
  ∧ (∀ s, synth c = Some s → n ∉ activeNotes c →
       voice_calls (handleKeyDown keyCode (handleKeyDown keyCode c))
       = voice_calls c ++ [TriggerAttack (getNoteWithOctave c n)]
       ∧ attacks (voice_calls (handleKeyDown keyCode (handleKeyDown keyCode c)))
         = S (attacks (voice_calls c))
       ∧ activeNotes (handleKeyDown keyCode (handleKeyDown keyCode c))
         = {[n]} ∪ activeNotes c).
Proof.
  intros Hn.
  assert (Hidem : handleKeyDown keyCode (handleKeyDown keyCode c) = handleKeyDown keyCode c).
  { destruct (decide (n ∈ activeNotes c)) as [Hheld|Hfree].
    - by rewrite !(handleKeyDown_held c keyCode n).
    - destruct (synth c) as [s|] eqn:Hs.
      + rewrite (handleKeyDown_fresh c s keyCode n) by done.
        apply (handleKeyDown_held _ keyCode n); [done|]. simpl. set_solver.
      + unfold handleKeyDown at 2. rewrite Hn, Hs. simpl.
        unfold handleKeyDown. by rewrite Hn, Hs. }
  split; [by apply handleKeyDown_held|]. split; [done|].
  intros s Hs Hfree. rewrite Hidem.
  rewrite (handleKeyDown_fresh c s keyCode n) by done.
  unfold voice_calls. rewrite Hs. simpl. split; [done|]. split; [|done].
  rewrite attacks_app. simpl. unfold attacks at 2. simpl. lia.
Qed.

Lemma handleKeyDown_held_is_noop_witness :
  handleKeyDown 65 holdingC = holdingC
  ∧ voice_calls (handleKeyDown 65 (handleKeyDown 65 mounted)) = [TriggerAttack "C4"].
Proof.
  split.
  - destruct (handleKeyDown_held_is_noop holdingC 65 "C" eq_refl) as (Hheld & _ & _).
    apply Hheld. vm_compute. set_solver.
  - destruct (handleKeyDown_held_is_noop mounted 65 "C" eq_refl) as (_ & _ & Hfresh).
    apply (Hfresh {| calls := []; outputs := [] |} eq_refl). simpl. set_solver.
Defined.

(** C8: a key-up for a note that is not held changes nothing: no release call
    reaches the tone generator and the held-note set stays as it was. *)
Theorem handleKeyUp_not_held_is_noop (c : Component) (keyCode : Z) (n : string) :
  getNoteFromKeyCode keyCode = Some n → n ∉ activeNotes c →
  handleKeyUp keyCode c = c
  ∧ voice_calls (handleKeyUp keyCode c) = voice_calls c
  ∧ activeNotes (handleKeyUp keyCode c) = activeNotes c.
Proof.
  intros Hn Hfree. by rewrite (handleKeyUp_free c keyCode n).
Qed.

Lemma handleKeyUp_not_held_is_noop_witness :
  handleKeyUp 83 holdingC = holdingC
  ∧ voice_calls (handleKeyUp 83 holdingC) = [TriggerAttack "C4"]
  ∧ activeNotes (handleKeyUp 83 holdingC) = activeNotes holdingC.
Proof.
  apply (handleKeyUp_not_held_is_noop holdingC 83 "D" eq_refl).
  vm_compute. set_solver.
Defined.

(** C9: [getNoteFromKeyCode] is a total function of the key code.  On every
    code that is not one of the 11 case labels it returns [null], and the two
    key handlers then leave the component as it is; the 11 labels are
    pairwise distinct, each is mapped to a note, and no note is the image of
    two codes. *)
Theorem getNoteFromKeyCode_table :
  (∀ keyCode, keyCode ∉ keyCodes →
     getNoteFromKeyCode keyCode = None
     ∧ ∀ c, handleKeyDown keyCode c = c ∧ handleKeyUp keyCode c = c)
  ∧ (∀ keyCode, keyCode ∈ keyCodes ↔ is_Some (getNoteFromKeyCode keyCode))
  ∧ length keyCodes = 11%nat
  ∧ NoDup keyCodes
  ∧ NoDup (getNoteFromKeyCode <$> keyCodes)
  ∧ (∀ k1 k2 n, getNoteFromKeyCode k1 = Some n → getNoteFromKeyCode k2 = Some n → k1 = k2).
Proof.
  split; [|split; [|split; [|split; [|split]]]].
  - intros keyCode Hout. pose proof (getNoteFromKeyCode_unmapped _ Hout) as Hnone.
    split; [done|]. intros c. split.
    + by apply handleKeyDown_unmapped.
    + by apply handleKeyUp_unmapped.
  - intros keyCode. split.
    + intros Hin. destruct (getNoteFromKeyCode_mapped _ Hin) as (n & Hn & _). by exists n.
    + intros [n Hn]. destruct (decide (keyCode ∈ keyCodes)) as [Hin|Hout]; [done|].
      rewrite (getNoteFromKeyCode_unmapped _ Hout) in Hn. discriminate.
  - reflexivity.
  - refine (bool_decide_unpack (NoDup keyCodes) _). vm_compute. exact I.
  - refine (bool_decide_unpack (NoDup (getNoteFromKeyCode <$> keyCodes)) _).
    vm_compute. exact I.
  - apply getNoteFromKeyCode_inj.
Qed.

Lemma getNoteFromKeyCode_table_witness :
  getNoteFromKeyCode 66 = None
  ∧ handleKeyDown 66 holdingC = holdingC ∧ handleKeyUp 66 holdingC = holdingC.
Proof.
  destruct getNoteFromKeyCode_table as (Hunmapped & _).
  destruct (Hunmapped 66) as (Hnone & Hhandlers).
  - unfold keyCodes. rewrite !not_elem_of_cons. repeat split; try discriminate.
    apply not_elem_of_nil.
  - split; [exact Hnone | exact (Hhandlers holdingC)].
Defined.

(** ** Octave shifts *)

Example roundToDouble_ties :
  roundToDouble (2 ^ 53 + 1) = 2 ^ 53
  ∧ roundToDouble (2 ^ 53 + 3) = 2 ^ 53 + 4
  ∧ roundToDouble (- 2 ^ 53 - 1) = - 2 ^ 53
  ∧ roundToDouble (2 ^ 54 + 2) = 2 ^ 54
  ∧ roundToDouble (2 ^ 54 + 3) = 2 ^ 54 + 4
  ∧ roundToDouble (2 ^ 53 - 1) = 2 ^ 53 - 1.
Proof. by vm_compute. Qed.

Lemma roundToDouble_exact (z : Z) : Z.abs z ≤ 2 ^ 53 → roundToDouble z = z.
Proof.
  intros Hz. unfold roundToDouble. cbv zeta.
  destruct (Z.leb_spec (Z.abs z) (2 ^ 53)) as [_|Hgt]; [reflexivity | lia].
Qed.

Lemma handleOctaveChange_octave (direction : string) (c : Component) :
  Z.abs (octave (settings c)) < 2 ^ 53 →
  octave (settings (handleOctaveChange direction c))
  = octave (settings c) + (if String.eqb direction "up" then 1 else -1).
Proof.
  intros Ho. unfold handleOctaveChange. cbn [settings with_settings octave].
  destruct (String.eqb direction "up"); apply roundToDouble_exact; lia.
Qed.

Lemma handleOctaveChange_up_down (c : Component) :
  - 2 ^ 53 ≤ octave (settings c) < 2 ^ 53 →
  handleOctaveChange "down" (handleOctaveChange "up" c) = c.
Proof.
  intros Ho. destruct c as [[o] ? ? ? ? ? ? ?]. cbn [settings octave] in Ho.
  unfold handleOctaveChange, with_settings. cbn [settings octave String.eqb Ascii.eqb Bool.eqb].
  do 2 f_equal.
  rewrite (roundToDouble_exact (o + 1)) by lia.
  rewrite roundToDouble_exact by lia. lia.
Qed.

(** C7 (as amended): for every starting octave from -2^53 up to, but not
    including, 2^53, an octave shift up followed by a shift down puts the
    octave back to its starting value, and every note resolves to the same
    pitch after both shifts as before them (the component as a whole is back
    in its starting state).  Whatever the octave, the held-note set is the
    same after each of the two shifts. *)
Theorem octave_up_then_down (c : Component) :
  (activeNotes (handleOctaveChange "up" c) = activeNotes c
   ∧ activeNotes (handleOctaveChange "down" (handleOctaveChange "up" c)) = activeNotes c)
  ∧ (- 2 ^ 53 ≤ octave (settings c) < 2 ^ 53 →
     octave (settings (handleOctaveChange "up" c)) = octave (settings c) + 1
     ∧ octave (settings (handleOctaveChange "down" (handleOctaveChange "up" c)))
       = octave (settings c)
     ∧ (∀ note, getNoteWithOctave (handleOctaveChange "down" (handleOctaveChange "up" c)) note
                = getNoteWithOctave c note)
     ∧ handleOctaveChange "down" (handleOctaveChange "up" c) = c).
Proof.
  split; [by split|]. intros Ho.
  rewrite handleOctaveChange_up_down by done. split; [|by repeat split].
  unfold handleOctaveChange. cbn [settings with_settings octave String.eqb Ascii.eqb Bool.eqb].
  apply roundToDouble_exact. lia.
Qed.

Lemma octave_up_then_down_witness :
  octave (settings (handleOctaveChange "down" (handleOctaveChange "up" mounted))) = 4
  ∧ handleOctaveChange "down" (handleOctaveChange "up" mounted) = mounted.
Proof.
  destruct (octave_up_then_down mounted) as (_ & Hback).
  destruct Hback as (_ & Hoct & _ & Hsame); [by vm_compute|].
  split; [exact Hoct | exact Hsame].
Defined.

(** C7, counterexample: at octave 2^53 the shift up is absorbed (2^53 + 1 is
    not a double and rounds back to 2^53), so the shift down that follows
    ends one below the starting octave, and the pitch resolved for a note is
    no longer the one resolved before. *)
Lemma octave_up_then_down_at_2_53 :
  octave (settings (handleOctaveChange "up" (with_settings {| octave := 2 ^ 53 |} mounted)))
  = 2 ^ 53
  ∧ octave (settings (handleOctaveChange "down"
                        (handleOctaveChange "up"
                           (with_settings {| octave := 2 ^ 53 |} mounted))))
    = 2 ^ 53 - 1
  ∧ getNoteWithOctave (with_settings {| octave := 2 ^ 53 |} mounted) "C"
    = "C9007199254740992"
  ∧ getNoteWithOctave (handleOctaveChange "down"
                         (handleOctaveChange "up"
                            (with_settings {| octave := 2 ^ 53 |} mounted))) "C"
    = "C9007199254740991".
Proof. by vm_compute. Qed.

Lemma getNoteWithOctave_inj (c1 c2 : Component) (note : string) :
  getNoteWithOctave c1 note = getNoteWithOctave c2 note →
  octave (settings c1) = octave (settings c2).
Proof.
  unfold getNoteWithOctave. intros Heq.
  apply String.app_inj in Heq. by apply (inj pretty) in Heq.
Qed.

Lemma handleOctaveChange_shifts (direction : string) (c : Component) :
  Z.abs (octave (settings c)) < 2 ^ 53 →
  octave (settings (handleOctaveChange direction c)) ≠ octave (settings c).
Proof.
  intros Ho. rewrite handleOctaveChange_octave by done.
  destruct (String.eqb direction "up"); lia.
Qed.

(** The octave buttons clicked one after the other, in list order. *)
Lemma shifts_frame (directions : list string) (c : Component) :
  synth (foldl (λ c d, handleOctaveChange d c) c directions) = synth c
  ∧ activeNotes (foldl (λ c d, handleOctaveChange d c) c directions) = activeNotes c.
Proof.
  revert c. induction directions as [|d directions IH]; intros c; [done|].
  cbn [foldl]. destruct (IH (handleOctaveChange d c)) as (-> & ->). done.
Qed.

(** C10 (as amended): the release call is made for the pitch at the octave
    current at key-up, not at key-down.  Whatever octave shifts happen
    between the key-down and the key-up of a note, the three steps add
    exactly an attack for the pitch at the octave of the key-down and a
    release for the pitch at the octave of the key-up, and the note is no
    longer held afterwards, so a later key-up adds nothing.  The two pitches
    differ exactly when the two octaves differ, as they do after a single
    shift from an octave strictly between -2^53 and 2^53; the log then gains
    no release for the attacked pitch. *)
Theorem release_uses_octave_at_release
    (c : Component) (s : Synth) (keyCode : Z) (n : string) (directions : list string) :
  getNoteFromKeyCode keyCode = Some n → synth c = Some s → n ∉ activeNotes c →
  let c1 := handleKeyDown keyCode c in
  let c2 := foldl (λ c d, handleOctaveChange d c) c1 directions in
  let c3 := handleKeyUp keyCode c2 in
  voice_calls c3
  = voice_calls c ++ [TriggerAttack (getNoteWithOctave c n);
                      TriggerRelease (getNoteWithOctave c2 n)]
  ∧ (getNoteWithOctave c2 n = getNoteWithOctave c n
     ↔ octave (settings c2) = octave (settings c))
  ∧ (octave (settings c2) ≠ octave (settings c) →
     (TriggerRelease (getNoteWithOctave c n) ∈ voice_calls c3
      ↔ TriggerRelease (getNoteWithOctave c n) ∈ voice_calls c))
  ∧ (∀ direction, directions = [direction] → Z.abs (octave (settings c)) < 2 ^ 53 →
     octave (settings c2) ≠ octave (settings c))
  ∧ (n ∉ activeNotes c3)
  ∧ handleKeyUp keyCode c3 = c3.
Proof.
  intros Hn Hs Hfree c1 c2 c3.
  assert (Hc1 : c1 = with_synth (Some (triggerAttack (getNoteWithOctave c n) s))
                       (with_activeNotes ({[n]} ∪ activeNotes c) c))
    by (by apply handleKeyDown_fresh).
  destruct (shifts_frame directions c1) as (Hs2 & Ha2). fold c2 in Hs2, Ha2.
  rewrite Hc1 in Hs2, Ha2. cbn [synth activeNotes with_synth with_activeNotes] in Hs2, Ha2.
  assert (Hc3 : c3 = with_synth
                       (Some (triggerRelease (getNoteWithOctave c2 n)
                                (triggerAttack (getNoteWithOctave c n) s)))
                       (with_activeNotes (activeNotes c2 ∖ {[n]}) c2)).
  { apply handleKeyUp_held; [done..|]. rewrite Ha2.
    by apply elem_of_union_l, elem_of_singleton. }
  assert (Hcalls : voice_calls c3
                   = voice_calls c ++ [TriggerAttack (getNoteWithOctave c n);
                                       TriggerRelease (getNoteWithOctave c2 n)]).
  { rewrite Hc3. unfold voice_calls. rewrite Hs. simpl. by rewrite <- app_assoc. }
  assert (Hout : n ∉ activeNotes c3).
  { rewrite Hc3. simpl. apply not_elem_of_difference. right. by apply elem_of_singleton. }
  assert (Hlabel : getNoteWithOctave c2 n = getNoteWithOctave c n
                   ↔ octave (settings c2) = octave (settings c)).
  { split; [apply getNoteWithOctave_inj|]. unfold getNoteWithOctave. by intros ->. }
  split; [done|]. split; [done|]. split; [|split; [|split; [done|]]].
  - intros Hne.
    rewrite Hcalls, elem_of_app, !elem_of_cons, elem_of_nil. split; [|tauto].
    intros [?|[?|[Heq|[]]]]; [done|discriminate|]. injection Heq as Heq.
    symmetry in Heq. apply Hlabel in Heq. by destruct Hne.
  - intros direction Hdir Ho. subst c2. rewrite Hdir. cbn [foldl].
    replace (octave (settings c)) with (octave (settings c1)) in * by (by rewrite Hc1).
    by apply handleOctaveChange_shifts.
  - by apply (handleKeyUp_free c3 keyCode n).
Qed.

Lemma release_uses_octave_at_release_witness :
  voice_calls (handleKeyUp 65 (handleOctaveChange "up" (handleKeyDown 65 mounted)))
  = [TriggerAttack "C4"; TriggerRelease "C5"]
  ∧ octave (settings (handleOctaveChange "up" (handleKeyDown 65 mounted))) ≠ 4.
Proof.
  destruct (release_uses_octave_at_release mounted {| calls := []; outputs := [] |}
              65 "C" ["up"] eq_refl eq_refl) as (Hcalls & _ & _ & Hsingle & _).
  - simpl. set_solver.
  - split; [exact Hcalls|]. apply (Hsingle "up" eq_refl). by vm_compute.
Defined.

(** C10, counterexample: with a shift up and a shift down between the
    key-down and the key-up of C, the release is for C4, the pitch that was
    attacked; and at octave 2^53 a single shift up is absorbed, so the
    release is again for the attacked pitch. *)
Lemma release_matches_attack_after_shifts :
  voice_calls (handleKeyUp 65
                 (handleOctaveChange "down"
                    (handleOctaveChange "up" (handleKeyDown 65 mounted))))
  = [TriggerAttack "C4"; TriggerRelease "C4"]
  ∧ voice_calls (handleKeyUp 65
                   (handleOctaveChange "up"
                      (handleKeyDown 65 (with_settings {| octave := 2 ^ 53 |} mounted))))
    = [TriggerAttack "C9007199254740992"; TriggerRelease "C9007199254740992"].
Proof. by vm_compute. Qed.

(** C6: the four handlers of an on-screen key never read or write the
    held-note set.  With a tone generator in place, mouse-down and
    touch-start each add an attack call and mouse-up and touch-end each add a
    release call, for the pitch at the current octave, whether or not the
    note is held; the held-note set is the same afterwards.  Only the two
    hardware-key handlers are guarded by the set: key-down is a no-op for a
    held note and key-up is a no-op for a note that is not held. *)
Theorem keyboard_buttons_bypass_activeNotes (c : Component) (s : Synth) (note : string) :
  synth c = Some s →
  (voice_calls (onMouseDown note c)
     = voice_calls c ++ [TriggerAttack (getNoteWithOctave c note)]
   ∧ voice_calls (onTouchStart note c)
     = voice_calls c ++ [TriggerAttack (getNoteWithOctave c note)]
   ∧ voice_calls (onMouseUp note c)
     = voice_calls c ++ [TriggerRelease (getNoteWithOctave c note)]
   ∧ voice_calls (onTouchEnd note c)
     = voice_calls c ++ [TriggerRelease (getNoteWithOctave c note)])
  ∧ (activeNotes (onMouseDown note c) = activeNotes c
     ∧ activeNotes (onTouchStart note c) = activeNotes c
     ∧ activeNotes (onMouseUp note c) = activeNotes c
     ∧ activeNotes (onTouchEnd note c) = activeNotes c)
  ∧ (∀ keyCode, getNoteFromKeyCode keyCode = Some note →
       (note ∈ activeNotes c → handleKeyDown keyCode c = c)
       ∧ (note ∉ activeNotes c → handleKeyUp keyCode c = c)).
Proof.
  intros Hs. split; [|split].
  - unfold onMouseDown, onTouchStart, onMouseUp, onTouchEnd, voice_calls.
    rewrite Hs. simpl. done.
  - unfold onMouseDown, onTouchStart, onMouseUp, onTouchEnd.
    rewrite Hs. simpl. done.
  - intros keyCode Hn. split; intros Hheld.
    + by apply (handleKeyDown_held c keyCode note).
    + by apply (handleKeyUp_free c keyCode note).
Qed.

Lemma keyboard_buttons_bypass_activeNotes_witness :
  voice_calls (onMouseDown "C" holdingC) = [TriggerAttack "C4"; TriggerAttack "C4"]
  ∧ activeNotes (onMouseDown "C" holdingC) = activeNotes holdingC
  ∧ handleKeyDown 65 holdingC = holdingC
  ∧ voice_calls (onTouchEnd "D" holdingC) = [TriggerAttack "C4"; TriggerRelease "D4"]
  ∧ handleKeyUp 83 holdingC = holdingC.
Proof.
  destruct (keyboard_buttons_bypass_activeNotes holdingC
              {| calls := [TriggerAttack "C4"]; outputs := [] |} "C" eq_refl)
    as ((Hdown & _) & (Hset & _) & Hkeys).
  destruct (keyboard_buttons_bypass_activeNotes holdingC
              {| calls := [TriggerAttack "C4"]; outputs := [] |} "D" eq_refl)
    as ((_ & _ & _ & Hend) & _ & Hkeys').
  split; [exact Hdown|]. split; [exact Hset|]. split; [|split; [exact Hend|]].
  - apply (Hkeys 65 eq_refl). vm_compute. set_solver.
  - apply (Hkeys' 83 eq_refl). vm_compute. set_solver.
Defined.

(** ** The block loop *)

Lemma blockCount_lt (n k : nat) : (k < blockCount n ↔ k * sampleBlockSize < n)%nat.
Proof.
  unfold blockCount, sampleBlockSize. simpl Nat.sub.
  pose proof (Nat.div_mod_eq (n + 1151) 1152) as Hdiv.
  pose proof (Nat.mod_upper_bound (n + 1151) 1152) as Hmod.
  lia.
Qed.

Section BlockLoop.
Context {codec : Mp3Codec}.

Lemma blockLoop_step (samples : list Z) (i : nat) (st : Mp3Encoder * list (list byte)) :
  (i < length samples)%nat →
  blockLoop samples i st
  = blockLoop samples (i + sampleBlockSize)
      (encodeChunk st (subarray samples i (i + sampleBlockSize))).
Proof.
  intros Hlt. rewrite blockLoop_equation_1.
  destruct (decide (i < length samples)%nat); [reflexivity | contradiction].
Qed.

Lemma blockLoop_done (samples : list Z) (i : nat) (st : Mp3Encoder * list (list byte)) :
  ¬ (i < length samples)%nat → blockLoop samples i st = st.
Proof.
  intros Hge. rewrite blockLoop_equation_1.
  destruct (decide (i < length samples)%nat); [contradiction | reflexivity].
Qed.

(** From chunk [k] on, the loop is the body folded over the remaining chunks. *)
Lemma blockLoop_from (samples : list Z) (d k : nat) (st : Mp3Encoder * list (list byte)) :
  (k + d = blockCount (length samples))%nat →
  blockLoop samples (k * sampleBlockSize) st
  = foldl encodeChunk st (block samples <$> seq k d).
Proof.
  revert k st. induction d as [|d IH]; intros k st Hk.
  - simpl. apply blockLoop_done. rewrite <- blockCount_lt. lia.
  - rewrite blockLoop_step by (apply blockCount_lt; lia).
    change (subarray samples (k * sampleBlockSize) (k * sampleBlockSize + sampleBlockSize))
      with (block samples k).
    replace (k * sampleBlockSize + sampleBlockSize)%nat
      with (S k * sampleBlockSize)%nat by lia.
    rewrite (IH (S k)) by lia. reflexivity.
Qed.

Lemma blockLoop_blocks (samples : list Z) (st : Mp3Encoder * list (list byte)) :
  blockLoop samples 0 st = foldl encodeChunk st (blocks samples).
Proof. apply (blockLoop_from samples (blockCount (length samples)) 0). lia. Qed.

(** The frames kept by the loop and the flush are the non-empty raw outputs. *)
Lemma foldl_encodeChunk (chunks : list (list Z)) (enc : Mp3Encoder) (mp3Data : list (list byte)) :
  (let '(enc', mp3Data') := foldl encodeChunk (enc, mp3Data) chunks in
   if bool_decide (0 < length (snd (flush enc')))%nat
   then mp3Data' ++ [snd (flush enc')] else mp3Data')
  = mp3Data ++ filter (λ b, (0 < length b)%nat) (rawOutputs enc chunks).
Proof.
  revert enc mp3Data. induction chunks as [|ch chunks IH]; intros enc mp3Data.
  - cbn [foldl rawOutputs]. rewrite filter_cons, filter_nil.
    destruct (decide _) as [Hne|Hne].
    + by rewrite (bool_decide_eq_true_2 _ Hne).
    + by rewrite (bool_decide_eq_false_2 _ Hne), app_nil_r.
  - cbn [foldl rawOutputs]. unfold encodeChunk at 2.
    destruct (encodeBuffer enc ch) as [enc' buf].
    rewrite IH. cbn [fst snd]. rewrite filter_cons.
    destruct (decide _) as [Hne|Hne].
    + by rewrite (bool_decide_eq_true_2 _ Hne), <- app_assoc.
    + by rewrite (bool_decide_eq_false_2 _ Hne).
Qed.

Lemma encodeSamples_rawOutputs (enc : Mp3Encoder) (samples : list Z) :
  encodeSamples enc samples
  = filter (λ b, (0 < length b)%nat) (rawOutputs enc (blocks samples)).
Proof.
  unfold encodeSamples. rewrite blockLoop_blocks.
  pose proof (foldl_encodeChunk (blocks samples) enc []) as H.
  destruct (foldl encodeChunk (enc, []) (blocks samples)) as [enc' mp3Data'].
  destruct (flush enc') as [enc'' buf]. exact H.
Qed.

End BlockLoop.

(** ** The chunks *)

Lemma length_blocks (samples : list Z) :
  length (blocks samples) = blockCount (length samples).
Proof. unfold blocks. by rewrite length_fmap, length_seq. Qed.

Lemma blocks_lookup (samples : list Z) (k : nat) (chunk : list Z) :
  blocks samples !! k = Some chunk →
  (k < blockCount (length samples))%nat ∧ chunk = block samples k.
Proof.
  unfold blocks. rewrite list_lookup_fmap. intros H.
  apply fmap_Some in H as (j & Hj & ->). apply lookup_seq in Hj as [-> Hlt]. done.
Qed.

Lemma length_block (samples : list Z) (k : nat) :
  length (block samples k)
  = (sampleBlockSize `min` (length samples - k * sampleBlockSize))%nat.
Proof.
  unfold block, subarray. rewrite length_take, length_drop. f_equal. lia.
Qed.

Lemma concat_blocks_from (samples : list Z) (d k : nat) :
  concat (block samples <$> seq k d)
  = take (d * sampleBlockSize) (drop (k * sampleBlockSize) samples).
Proof.
  revert k. induction d as [|d IH]; intros k; [done|].
  cbn [seq fmap list_fmap concat]. rewrite IH. unfold block, subarray.
  replace (k * sampleBlockSize + sampleBlockSize - k * sampleBlockSize)%nat
    with sampleBlockSize by lia.
  replace (drop (S k * sampleBlockSize) samples)
    with (drop sampleBlockSize (drop (k * sampleBlockSize) samples))
    by (rewrite drop_drop; f_equal; lia).
  rewrite take_take_drop. reflexivity.
Qed.

Lemma concat_blocks (samples : list Z) : concat (blocks samples) = samples.
Proof.
  unfold blocks. rewrite concat_blocks_from. rewrite Nat.mul_0_l, drop_0.
  apply take_ge.
  destruct (decide (length samples ≤ blockCount (length samples) * sampleBlockSize)%nat)
    as [|Hlt]; [done|].
  apply Nat.nle_gt, blockCount_lt in Hlt. lia.
Qed.

Lemma blocks_nonempty (samples : list Z) :
  samples ≠ [] → Exists (λ sampleChunk, sampleChunk ≠ []) (blocks samples).
Proof.
  intros Hne. rewrite <- (concat_blocks samples) in Hne.
  induction (blocks samples) as [|b l IH]; [done|].
  destruct b as [|x b]; [apply Exists_cons_tl, IH, Hne | by apply Exists_cons_hd].
Qed.

Lemma wavFile_nonempty (ch rate bits : Z) (data : list byte) :
  u8 <$> wavFile ch rate bits data ≠ [].
Proof.
  unfold wavFile. intros Hnil. apply (f_equal length) in Hnil.
  rewrite length_fmap, length_app in Hnil. cbn [length] in Hnil.
  change (length (Stdlib.Strings.String.list_byte_of_string "RIFF")) with 4%nat in Hnil.
  lia.
Qed.

Lemma echoCodec_drains : drains echoCodec.
Proof.
  intros enc chunks Hsome. revert enc.
  induction Hsome as [ch l Hch|ch l _ IH]; intros enc.
  - apply Exists_cons_hd. destruct ch; [done|]. cbn. discriminate.
  - apply Exists_cons_tl, IH.
Qed.

Example parse_oneSecondWav :
  parseWavHeader oneSecondWav
  = Ok {| dataOffset := 44; dataLen := 88200; sampleRate := 44100;
          channels := 1; bitsPerSample := 16 |}.
Proof. by vm_compute. Qed.

(** C2 (as amended): for every sample array the block loop hands the sample
    array to the block encoder chunk by chunk, the last chunk included.  The
    chunks are consecutive, cover the whole array, and each holds between 1
    and 1152 samples; every chunk but the last holds exactly 1152, and the
    last holds whatever is left, which is fewer than 1152 unless the length
    is a multiple of 1152.  The flush call is given no samples: the returned
    sequence is the non-empty ones among the outputs of the block-encoder
    calls and of the flush, in order.  For one second of 16-bit mono silence
    at 44100 Hz whose header is read, the returned frame sequence is not
    empty after the flush, when the encoder is one that has returned a
    non-empty output by the end of the flush whenever it was given a
    sample. *)
Theorem blockLoop_encodes_every_chunk {reader : WavReader} {codec : Mp3Codec} :
  (∀ (samples : list Z),
     (∀ st, blockLoop samples 0 st = foldl encodeChunk st (blocks samples))
     ∧ (∀ enc, encodeSamples enc samples
               = filter (λ b, (0 < length b)%nat) (rawOutputs enc (blocks samples)))
     ∧ concat (blocks samples) = samples
     ∧ (∀ k chunk, blocks samples !! k = Some chunk →
          chunk = subarray samples (k * sampleBlockSize) (k * sampleBlockSize + sampleBlockSize)
          ∧ (1 ≤ length chunk ≤ sampleBlockSize)%nat
          ∧ ((S k < length (blocks samples))%nat → length chunk = sampleBlockSize)
          ∧ (S k = length (blocks samples) →
             length chunk = (length samples - k * sampleBlockSize)%nat)))
  ∧ (drains codec → ∀ wav, readHeader oneSecondWav = Ok wav →
     ∃ frames, convertToMp3 oneSecondWav = Ok frames ∧ frames ≠ []).
Proof.
  split.
  - intros samples. split; [apply blockLoop_blocks|].
    split; [intros enc; apply encodeSamples_rawOutputs|]. split; [apply concat_blocks|].
    intros k chunk Hk. apply blocks_lookup in Hk as [Hlt ->].
    rewrite length_blocks, length_block.
    pose proof (proj1 (blockCount_lt (length samples) k) Hlt) as Hk.
    split; [done|]. split; [unfold sampleBlockSize in *; lia|]. split.
    + intros Hnext. apply blockCount_lt in Hnext. unfold sampleBlockSize in *. lia.
    + intros Hlast.
      assert (¬ (S k * sampleBlockSize < length samples)%nat) as Hge
        by (rewrite <- blockCount_lt; lia).
      unfold sampleBlockSize in *. lia.
  - intros Hdrains wav Hwav. unfold convertToMp3. rewrite Hwav.
    eexists. split; [reflexivity|]. rewrite encodeSamples_rawOutputs.
    unfold Int16Array_of_Uint8Array.
    assert (Hsome : u8 <$> oneSecondWav ≠ []) by apply wavFile_nonempty.
    pose proof (Hdrains (newMp3Encoder 1 (sampleRate wav) 128) _
                  (blocks_nonempty _ Hsome)) as Hout.
    apply Exists_exists in Hout as (b & Hb & Hne).
    intros Hnil. apply (filter_nil_not_elem_of _ _ b Hnil); [|exact Hb].
    clear - Hne. destruct b; [by destruct Hne|]. cbn. lia.
Qed.

Lemma blockLoop_encodes_every_chunk_witness :
  blocks [7; 8; 9] !! 0%nat = Some [7; 8; 9]
  ∧ (length [7; 8; 9] < sampleBlockSize)%nat
  ∧ @encodeSamples echoCodec () [7; 8; 9] = [[x07; x08; x09]]
  ∧ ∃ frames, @convertToMp3 specReader echoCodec oneSecondWav = Ok frames ∧ frames ≠ [].
Proof.
  destruct (@blockLoop_encodes_every_chunk specReader echoCodec) as (Hall & Hsecond).
  destruct (Hall [7; 8; 9]) as (_ & Henc & _ & Hchunks).
  destruct (Hchunks 0%nat [7; 8; 9] eq_refl) as (_ & Hlen & _ & _).
  split; [reflexivity|]. split; [unfold sampleBlockSize; simpl; lia|].
  split; [rewrite Henc; reflexivity|].
  exact (Hsecond echoCodec_drains _ parse_oneSecondWav).
Defined.

(** C2, counterexample: on an array of 1153 samples the loop calls the block
    encoder twice, first on 1152 samples and then on the single leftover
    sample, whatever the encoder is; and on one second of silence (44100
    samples) the last chunk given to the block encoder has 324 samples. *)
Lemma blockLoop_encodes_partial_chunk :
  blocks (replicate 1153 0) = [replicate 1152 0; [0]]
  ∧ (length [0] < sampleBlockSize)%nat
  ∧ (∀ (codec : Mp3Codec) st,
       blockLoop (replicate 1153 0) 0 st
       = encodeChunk (encodeChunk st (replicate 1152 0)) [0])
  ∧ (length <$> last (blocks oneSecondOfSilence)) = Some 324%nat.
Proof.
  assert (Hblocks : blocks (replicate 1153 0) = [replicate 1152 0; [0]]) by (by vm_compute).
  split; [done|]. split; [unfold sampleBlockSize; simpl; lia|]. split; [|by vm_compute].
  intros codec st. by rewrite blockLoop_blocks, Hblocks.
Qed.

(** ** Recording *)

Lemma initializeAudioContext_frame (c : Component) :
  synth (initializeAudioContext c) = synth c
  ∧ mediaRecorder (initializeAudioContext c) = mediaRecorder c
  ∧ recorders (initializeAudioContext c) = recorders c
  ∧ audioChunks (initializeAudioContext c) = audioChunks c
  ∧ streams (initializeAudioContext c) = streams c
  ∧ activeNotes (initializeAudioContext c) = activeNotes c
  ∧ settings (initializeAudioContext c) = settings c.
Proof. unfold initializeAudioContext. by destruct (audioContext c) as [[]|]. Qed.

Lemma capturing_Some (c : Component) (r : nat) :
  mediaRecorder c = Some r → capturing c = true →
  (rec_state <$> recorders c !! r) = Some Recording.
Proof.
  unfold capturing. intros ->. destruct (recorders c !! r) as [rec|]; [|done].
  simpl. by destruct (rec_state rec).
Qed.

(** C3 (as amended): [startRecording] while the session is capturing is not
    ignored.  It completes without error, creates a recorder on a new stream
    destination, stores it as the current recorder in place of the one that
    was current, and starts it.  The recorder that was current is still
    recording, the chunk sequence, the held notes, the settings and the
    generator's call log are unchanged, and the session is still capturing. *)
Theorem startRecording_while_capturing (c : Component) (s : Synth) (r : nat) :
  synth c = Some s → mediaRecorder c = Some r → capturing c = true →
  ∃ c', startRecording c = (c', None)
    ∧ mediaRecorder c' = Some (length (recorders c))
    ∧ r ≠ length (recorders c)
    ∧ recorders c'
      = recorders c ++ [{| rec_stream := streams c; rec_state := Recording |}]
    ∧ (rec_state <$> recorders c' !! r) = Some Recording
    ∧ audioChunks c' = audioChunks c
    ∧ capturing c' = true
    ∧ activeNotes c' = activeNotes c
    ∧ settings c' = settings c
    ∧ voice_calls c' = voice_calls c.
Proof.
  intros Hs Hr Hcap.
  pose proof (capturing_Some c r Hr Hcap) as Hrec.
  assert (Hlt : (r < length (recorders c))%nat).
  { apply lookup_lt_is_Some. destruct (recorders c !! r); [by eexists | discriminate]. }
  destruct (initializeAudioContext_frame c) as (Is & Im & Ir & Ic & It & Ia & Ise).
  unfold startRecording. rewrite Is, Hs, Ir, Ic, It, Ia, Ise.
  eexists. split; [reflexivity|]. cbn [mediaRecorder recorders audioChunks activeNotes settings].
  split; [done|]. split; [lia|]. split; [done|].
  split; [by rewrite lookup_app_l|]. split; [done|]. split; [|split; [done|split; [done|]]].
  - unfold capturing. cbn [mediaRecorder recorders].
    rewrite lookup_app_r by lia. by rewrite Nat.sub_diag.
  - unfold voice_calls. cbn [synth]. by rewrite Hs.
Qed.

Lemma startRecording_while_capturing_witness :
  ∃ c', startRecording recordingOnce = (c', None)
    ∧ mediaRecorder c' = Some 1%nat
    ∧ recorders c' = [{| rec_stream := 0; rec_state := Recording |};
                      {| rec_stream := 1; rec_state := Recording |}]
    ∧ audioChunks c' = [].
Proof.
  destruct (startRecording_while_capturing recordingOnce
              {| calls := []; outputs := [0%nat] |} 0%nat eq_refl eq_refl eq_refl)
    as (c' & Hstart & Hcur & _ & Hrecs & _ & Hchunks & _).
  exists c'. split; [exact Hstart|]. split; [exact Hcur|].
  split; [exact Hrecs | exact Hchunks].
Defined.

(** C3, counterexample: a second [startRecording] right after the first one
    changes the component: the current recorder is recorder 1 instead of
    recorder 0, and two recorders are recording. *)
Lemma startRecording_twice_changes_recorder :
  capturing recordingOnce = true
  ∧ mediaRecorder recordingOnce = Some 0%nat
  ∧ snd (startRecording recordingOnce) = None
  ∧ mediaRecorder (fst (startRecording recordingOnce)) = Some 1%nat
  ∧ recorders (fst (startRecording recordingOnce))
    = [{| rec_stream := 0; rec_state := Recording |};
       {| rec_stream := 1; rec_state := Recording |}]
  ∧ fst (startRecording recordingOnce) ≠ recordingOnce.
Proof.
  repeat split; try reflexivity.
  intros Heq. apply (f_equal mediaRecorder) in Heq. discriminate.
Qed.

(** ** Conversion *)

(** C4 (as amended): [convertToMp3] does not look at the channel count or the
    bit depth the header declares and raises no error of its own.  It fails
    exactly when reading the header fails, with the reader's error; for every
    buffer whose header is read it returns the frames of a one-channel
    encoder at 128 kbit/s and the header's sample rate; and the result is
    the same whatever channel count and bit depth the header is made to
    declare. *)
Theorem convertToMp3_ignores_sample_format
    {reader : WavReader} {codec : Mp3Codec} (wavBuffer : list byte) :
  (∀ e, convertToMp3 wavBuffer = Throw e ↔ readHeader wavBuffer = Throw e)
  ∧ (∀ wav, readHeader wavBuffer = Ok wav →
       ∃ samples, convertToMp3 wavBuffer
                  = Ok (encodeSamples (newMp3Encoder 1 (sampleRate wav) 128) samples))
  ∧ (∀ ch bits,
       @convertToMp3 (redeclare ch bits reader) codec wavBuffer
       = @convertToMp3 reader codec wavBuffer).
Proof.
  split; [|split].
  - intros e. unfold convertToMp3. destruct (readHeader wavBuffer); split; congruence.
  - intros wav Hwav. unfold convertToMp3. rewrite Hwav. by eexists.
  - intros ch bits. unfold convertToMp3, redeclare. cbn [readHeader].
    by destruct (@readHeader reader wavBuffer).
Qed.

Lemma convertToMp3_ignores_sample_format_witness :
  ∃ samples, @convertToMp3 specReader echoCodec eightBitWav
             = Ok (@encodeSamples echoCodec (@newMp3Encoder echoCodec 1 44100 128) samples).
Proof.
  destruct (@convertToMp3_ignores_sample_format specReader echoCodec eightBitWav)
    as (_ & Hread & _).
  exact (Hread _ parse_eightBitWav).
Defined.

(** C4, counterexample: a buffer whose header declares two channels, and one
    whose header declares 8 bits, are not rejected with a [FormatError].
    With the header reader as the component calls it, both conversions end
    with the reader's [TypeError], whatever the encoder is; and whatever the
    reader is, a conversion ends with a [FormatError] only if the reader
    itself raised it. *)
Lemma convertToMp3_has_no_format_check :
  le (bytes_at stereoWav 22 2) = 2
  ∧ le (bytes_at eightBitWav 34 2) = 8
  ∧ (∀ codec : Mp3Codec,
       @convertToMp3 uint8Reader codec stereoWav = Throw TypeError
       ∧ @convertToMp3 uint8Reader codec eightBitWav = Throw TypeError)
  ∧ (∀ (reader : WavReader) (codec : Mp3Codec),
       (@convertToMp3 reader codec stereoWav = Throw FormatError
        → @readHeader reader stereoWav = Throw FormatError)
       ∧ (@convertToMp3 reader codec eightBitWav = Throw FormatError
          → @readHeader reader eightBitWav = Throw FormatError)).
Proof.
  split; [by vm_compute|]. split; [by vm_compute|]. split; [done|].
  intros reader codec. unfold convertToMp3.
  split; [destruct (@readHeader reader stereoWav) | destruct (@readHeader reader eightBitWav)];
    congruence.
Qed.

Lemma stopRecording_audioChunks (c : Component) :
  audioChunks (stopRecording c) = audioChunks c.
Proof. unfold stopRecording. by destruct (mediaRecorder c). Qed.

(** C5 (as amended): when no chunk has arrived, [stop] followed by the
    recorder's [stop] event yields an empty raw buffer and leaves the chunk
    sequence empty, and the empty buffer is still handed to [convertToMp3].
    The outcome is what reading the header of an empty buffer gives: when
    the reader fails the handler ends with that error and no frame sequence
    is produced (the reader of the specification fails with [DecodeError], an
    empty buffer being a truncated header); were the header read, the loop
    would make no call and the result would be the output of [flush] if
    non-empty, and the empty sequence otherwise. *)
Theorem onstop_without_chunks
    {reader : WavReader} {codec : Mp3Codec} (c : Component) :
  onstop (stopRecording (with_audioChunks [] c))
  = (stopRecording (with_audioChunks [] c), [], convertToMp3 [])
  ∧ convertToMp3 []
    = match readHeader [] with
      | Throw e => Throw e
      | Ok wav =>
          Ok (filter (λ b, (0 < length b)%nat)
                [snd (flush (newMp3Encoder 1 (sampleRate wav) 128))])
      end
  ∧ @convertToMp3 specReader codec [] = Throw DecodeError.
Proof.
  split; [|split; [|reflexivity]].
  - unfold onstop. rewrite stopRecording_audioChunks. cbn [audioChunks with_audioChunks concat].
    repeat f_equal.
    unfold stopRecording, with_audioChunks. cbn. by destruct (mediaRecorder c).
  - unfold convertToMp3. destruct (readHeader []) as [wav|e]; [|done].
    by rewrite encodeSamples_rawOutputs.
Qed.

(** C5, counterexample: right after [startRecording] no chunk has arrived;
    [stop] and the [stop] event then leave an empty raw buffer and, with the
    header reader of the specification, end with a [DecodeError] instead of
    an empty frame sequence, whatever the encoder is. *)
Lemma onstop_without_chunks_raises :
  audioChunks recordingOnce = []
  ∧ capturing recordingOnce = true
  ∧ capturing (stopRecording recordingOnce) = false
  ∧ (∀ codec : Mp3Codec,
       @onstop specReader codec (stopRecording recordingOnce)
       = (stopRecording recordingOnce, [], Throw DecodeError))
  ∧ @onstop specReader echoCodec (stopRecording recordingOnce)
    = (stopRecording recordingOnce, [], Throw DecodeError).
Proof. repeat split. Qed.

Example convertToMp3_echo_stereoWav :
  @convertToMp3 specReader echoCodec stereoWav = Ok [stereoWav].
Proof. vm_compute. reflexivity. Qed.

(** ** Further properties *)

(** X1: a key-down followed by the key-up of the same key, for a note that
    was not held and with no octave shift in between, adds an attack and then
    a release for the same pitch, and the held-note set is back to what it
    was. *)
Theorem press_then_release (c : Component) (s : Synth) (keyCode : Z) (n : string) :
  getNoteFromKeyCode keyCode = Some n → synth c = Some s → n ∉ activeNotes c →
  voice_calls (handleKeyUp keyCode (handleKeyDown keyCode c))
  = voice_calls c ++ [TriggerAttack (getNoteWithOctave c n);
                      TriggerRelease (getNoteWithOctave c n)]
  ∧ activeNotes (handleKeyUp keyCode (handleKeyDown keyCode c)) = activeNotes c.
Proof.
  intros Hn Hs Hfree.
  rewrite (handleKeyDown_fresh c s keyCode n) by done.
  rewrite (handleKeyUp_held _ (triggerAttack (getNoteWithOctave c n) s) keyCode n);
    [|done|done|by apply elem_of_union_l, elem_of_singleton].
  unfold voice_calls. rewrite Hs. cbn. split; [by rewrite <- app_assoc|].
  apply set_eq. intros x. rewrite elem_of_difference, elem_of_union, elem_of_singleton.
  split; [intros [[?|?] ?]; done|]. intros Hx. split; [by right|]. by intros ->.
Qed.

Lemma press_then_release_witness :
  voice_calls (handleKeyUp 222 (handleKeyDown 222 holdingC))
  = [TriggerAttack "C4"; TriggerAttack "G#4"; TriggerRelease "G#4"]
  ∧ activeNotes (handleKeyUp 222 (handleKeyDown 222 holdingC)) = activeNotes holdingC.
Proof.
  apply (press_then_release holdingC {| calls := [TriggerAttack "C4"]; outputs := [] |}
           222 "G#" eq_refl eq_refl).
  vm_compute. set_solver.
Defined.

(** X2: chunks are appended in arrival order, the raw buffer the [stop] event
    builds is their concatenation in that order, and the chunk sequence is
    empty after the event whether the conversion succeeds or fails.  Three
    chunks of 100, 250 and 76 bytes give a raw buffer of 426 bytes. *)
Theorem onstop_concatenates_in_order
    {reader : WavReader} {codec : Mp3Codec} (c : Component) (chunks : list (list byte)) :
  audioChunks (foldl (λ c data, ondataavailable data c) c chunks) = audioChunks c ++ chunks
  ∧ snd (fst (onstop (foldl (λ c data, ondataavailable data c) c chunks)))
    = concat (audioChunks c ++ chunks)
  ∧ audioChunks (fst (fst (onstop (foldl (λ c data, ondataavailable data c) c chunks)))) = []
  ∧ length (concat [replicate 100 x00; replicate 250 x01; replicate 76 x02]) = 426%nat.
Proof.
  assert (Happ : audioChunks (foldl (λ c data, ondataavailable data c) c chunks)
                 = audioChunks c ++ chunks).
  { revert c. induction chunks as [|d chunks IH]; intros c.
    - by rewrite app_nil_r.
    - cbn [foldl]. rewrite IH. cbn. by rewrite <- app_assoc. }
  split; [done|]. split; [|split; [done|by vm_compute]].
  unfold onstop. cbn [fst snd]. by rewrite Happ.
Qed.

(** ** Runs of events *)

Section Runs.
Context {reader : WavReader} {codec : Mp3Codec}.

Lemma run_cons (e : Event) (events : list Event) (c : Component) :
  run (e :: events) c = run events (step e c).
Proof. reflexivity. Qed.

Lemma run_app (ev1 ev2 : list Event) (c : Component) :
  run (ev1 ++ ev2) c = run ev2 (run ev1 c).
Proof. unfold run. apply foldl_app. Qed.

(** An invariant of every step is an invariant of every run. *)
Lemma run_invariant (P : Component → Prop) :
  (∀ e c, P c → P (step e c)) → ∀ events c, P c → P (run events c).
Proof.
  intros Hstep events. induction events as [|e events IH]; intros c Hc; [done|].
  rewrite run_cons. by apply IH, Hstep.
Qed.

Lemma step_note_recordingSide (e : Event) (c : Component) :
  isNoteEvent e = true → recordingSide (step e c) = recordingSide c.
Proof.
  destruct e; try discriminate; intros _; destruct c; cbn [step];
    unfold handleKeyDown, handleKeyUp, onMouseDown, onMouseUp, onTouchStart,
      onTouchEnd, handleOctaveChange, recordingSide;
    cbn [synth activeNotes]; repeat case_match; reflexivity.
Qed.

Lemma step_recording_noteSide (e : Event) (c : Component) :
  isRecordingEvent e = true → noteSide (step e c) = noteSide c.
Proof.
  destruct e; try discriminate; intros _; destruct c; cbn [step];
    unfold startRecording, initializeAudioContext, stopRecording, ondataavailable,
      onstop, noteSide, voice_calls;
    cbn [synth audioContext mediaRecorder with_audioContext]; repeat case_match;
    simplify_eq/=; reflexivity.
Qed.


Lemma wellFormed_recordingSide (c c' : Component) :
  mediaRecorder c' = mediaRecorder c →
  streams c' = streams c → recorders c' = recorders c →
  outputs <$> synth c' = outputs <$> synth c →
  wellFormed c → wellFormed c'.
Proof.
  intros Hm Hst Hr Ho ((s & Hs & Hout) & Hstreams & Hcur & Hrec).
  unfold wellFormed. rewrite Hm, Hst, Hr. repeat split; try done.
  rewrite Hs in Ho. destruct (synth c') as [s'|]; [|discriminate].
  exists s'. split; [done|]. injection Ho as Ho. by rewrite Ho.
Qed.

Lemma wellFormed_step (e : Event) (c : Component) :
  wellFormed c → wellFormed (step e c).
Proof.
  intros Hwf.
  destruct (isNoteEvent e) eqn:Hnote.
  { pose proof (step_note_recordingSide e c Hnote) as Hside.
    unfold recordingSide in Hside. injection Hside as _ Hm _ Hst Hr Ho.
    by apply (wellFormed_recordingSide c). }
  destruct Hwf as ((s & Hs & Hout) & Hstreams & Hcur & Hrec).
  destruct e; try discriminate; cbn [step].
  - (* StartRecording *)
    unfold startRecording.
    destruct (initializeAudioContext_frame c) as (Is & _ & Ir & _ & It & _).
    rewrite Is, Hs, Ir, It. unfold wellFormed.
    cbn [fst synth streams mediaRecorder recorders].
    rewrite length_app. cbn [length]. rewrite Nat.add_1_r.
    split; [|split; [|split]]; try done.
    + eexists. split; [reflexivity|]. cbn [outputs].
      rewrite Hout, Hstreams. by rewrite seq_S.
    + by rewrite Hstreams.
    + intros i rec Hi. apply lookup_app_Some in Hi as [Hi|[Hge Hi]]; [by apply Hrec|].
      apply list_lookup_singleton_Some in Hi as [Hi <-]. cbn. lia.
  - (* StopRecording *)
    unfold stopRecording. destruct (mediaRecorder c) as [r|] eqn:Hr.
    + unfold wellFormed. cbn [synth streams mediaRecorder recorders].
      rewrite length_alter. split; [by exists s|]. split; [done|].
      split; [done|].
      intros i rec Hi. destruct (decide (r = i)) as [->|Hne].
      * rewrite list_lookup_alter_eq in Hi. apply fmap_Some in Hi as (rec' & Hi & ->).
        cbn. by apply Hrec.
      * rewrite list_lookup_alter_ne in Hi by done. by apply Hrec.
    + unfold wellFormed. rewrite ?Hr. repeat split; try done. by exists s.
  - (* DataAvailable *)
    unfold wellFormed. cbn. repeat split; try done. by exists s.
  - (* Stop *)
    unfold wellFormed. cbn. repeat split; try done. by exists s.
  - (* Effect *)
    unfold runEffect. rewrite Hs. unfold wellFormed. repeat split; try done. by exists s.
Qed.

Lemma wellFormed_mounted : wellFormed mounted.
Proof.
  unfold wellFormed. cbn. split; [by eexists|]. repeat split; try done.
Qed.

Lemma mounted_runs_are_wellFormed_aux (events : list Event) :
  ∃ s, synth (run events mounted) = Some s.
Proof.
  assert (Hwf : wellFormed (run events mounted))
    by (apply run_invariant; [apply wellFormed_step | apply wellFormed_mounted]).
  destruct Hwf as ((s & Hs & _) & _). by exists s.
Qed.

(** X3: whatever events a mounted component has handled, it is well formed:
    the synth is there, it is connected to one stream destination per
    recorder created so far, and the current recorder is the last one
    created.  So [startRecording] never finds a [null] synth in a component
    reached from the mounted one: it does not end with the [TypeError] of
    [synth.current.connect]. *)
Theorem mounted_runs_are_wellFormed (events : list Event) :
  wellFormed (run events mounted)
  ∧ snd (startRecording (run events mounted)) = None.
Proof.
  assert (Hwf : wellFormed (run events mounted))
    by (apply run_invariant; [apply wellFormed_step | apply wellFormed_mounted]).
  split; [done|].
  destruct Hwf as ((s & Hs & _) & _).
  unfold startRecording.
  replace (synth (initializeAudioContext (run events mounted))) with (Some s); [done|].
  rewrite <- Hs. unfold initializeAudioContext.
  by destruct (audioContext (run events mounted)) as [[]|].
Qed.

End Runs.

(** ** The two sides of the component *)

Section Sides.
Context {reader : WavReader} {codec : Mp3Codec}.

(** X4: the key, on-screen key and octave handlers leave everything the
    recording works on as it is (audio context, current recorder, chunk
    sequence, stream destinations, recorders, and the synth's connections),
    and the recording handlers leave the settings, the held notes and the
    generator's call log as they are; over any run of events of one kind. *)
Theorem note_and_recording_sides_independent (events : list Event) (c : Component) :
  (forallb isNoteEvent events = true → recordingSide (run events c) = recordingSide c)
  ∧ (forallb isRecordingEvent events = true → noteSide (run events c) = noteSide c).
Proof.
  split; revert c; induction events as [|e events IH]; intros c Hall; try done;
    cbn [forallb] in Hall; apply andb_prop in Hall as [He Hall]; rewrite run_cons, IH by done.
  - by apply step_note_recordingSide.
  - by apply step_recording_noteSide.
Qed.

Lemma step_octave (e : Event) (c : Component) :
  (octaveStep e = 0 → octave (settings (step e c)) = octave (settings c))
  ∧ (Z.abs (octave (settings c)) < 2 ^ 53 →
     octave (settings (step e c)) = octave (settings c) + octaveStep e).
Proof.
  destruct (isRecordingEvent e) eqn:Hrec.
  { pose proof (step_recording_noteSide e c Hrec) as Hside.
    injection Hside as -> _ _. destruct e; try discriminate; cbn; split; intros; lia. }
  destruct e; try discriminate; cbn [step octaveStep].
  7:{ split; [destruct (String.eqb direction "up"); discriminate|].
      apply handleOctaveChange_octave. }
  all: unfold handleKeyDown, handleKeyUp, onMouseDown, onMouseUp, onTouchStart, onTouchEnd,
         runEffect; repeat case_match; cbn; split; intros; lia.
Qed.

(** X5: as long as the octave cannot leave the range of -2^53 to 2^53 (its
    magnitude before the run plus the number of events is at most 2^53), the
    octave after a run of events is the octave before it plus one for every
    click on the up button and minus one for every click on the other
    button.  Whatever the octave, an event other than an octave click leaves
    it as it is. *)
Theorem octave_after_run (events : list Event) (c : Component) :
  (Z.abs (octave (settings c)) + Z.of_nat (length events) ≤ 2 ^ 53 →
   octave (settings (run events c)) = octave (settings c) + sumZ octaveStep events)
  ∧ (∀ e, octaveStep e = 0 → octave (settings (step e c)) = octave (settings c)).
Proof.
  split; [|intros e; apply step_octave].
  revert c. induction events as [|e events IH]; intros c Hbound; [cbn; lia|].
  cbn [length] in Hbound.
  destruct (step_octave e c) as (_ & Hstep). rewrite run_cons.
  assert (Hoct : octave (settings (step e c)) = octave (settings c) + octaveStep e)
    by (apply Hstep; lia).
  assert (Hone : -1 ≤ octaveStep e ≤ 1).
  { destruct e; cbn; try lia. destruct (String.eqb direction "up"); lia. }
  rewrite IH by (rewrite Hoct; lia).
  rewrite Hoct. cbn [sumZ foldr]. fold (sumZ octaveStep events). lia.
Qed.

End Sides.

Lemma octave_after_run_witness :
  octave (settings (@run specReader echoCodec
                      [OctaveChange "down"; KeyDown 65; OctaveChange "up";
                       OctaveChange "low"; StartRecording; OctaveChange "down"]
                      mounted)) = 2.
Proof.
  destruct (@octave_after_run specReader echoCodec
              [OctaveChange "down"; KeyDown 65; OctaveChange "up";
               OctaveChange "low"; StartRecording; OctaveChange "down"] mounted)
    as (Hsum & _).
  rewrite Hsum; [reflexivity | by vm_compute].
Defined.

(** ** Attacks, releases and held notes *)

Lemma releases_app (l1 l2 : list VoiceCall) :
  releases (l1 ++ l2) = (releases l1 + releases l2)%nat.
Proof. unfold releases. by rewrite filter_app, length_app. Qed.

Lemma count_singleton (p : string) :
  attacks [TriggerAttack p] = 1%nat ∧ attacks [TriggerRelease p] = 0%nat
  ∧ releases [TriggerAttack p] = 0%nat ∧ releases [TriggerRelease p] = 1%nat.
Proof. done. Qed.

Lemma getNoteFromKeyCode_keyNotes (keyCode : Z) (n : string) :
  getNoteFromKeyCode keyCode = Some n → n ∈ keyNotes.
Proof.
  intros Hn. unfold keyNotes. apply list_elem_of_omap. exists keyCode. split; [|done].
  destruct (decide (keyCode ∈ keyCodes)) as [|Hout]; [done|].
  rewrite (getNoteFromKeyCode_unmapped _ Hout) in Hn. discriminate.
Qed.

(** Attacks minus releases minus held notes. *)
Lemma step_balance {reader : WavReader} {codec : Mp3Codec}
    (e : Event) (c : Component) (s : Synth) :
  synth c = Some s →
  Z.of_nat (attacks (voice_calls (step e c)))
  - Z.of_nat (releases (voice_calls (step e c)))
  - Z.of_nat (size (activeNotes (step e c)))
  = Z.of_nat (attacks (voice_calls c)) - Z.of_nat (releases (voice_calls c))
    - Z.of_nat (size (activeNotes c)) + buttonNet e.
Proof.
  intros Hs.
  destruct (isRecordingEvent e) eqn:Hrec.
  { pose proof (step_recording_noteSide e c Hrec) as Hside.
    injection Hside as _ -> ->. destruct e; try discriminate; cbn; lia. }
  assert (Hvc : voice_calls c = calls s) by (unfold voice_calls; by rewrite Hs).
  destruct e; try discriminate; cbn [step buttonNet].
  - (* KeyDown *)
    destruct (getNoteFromKeyCode keyCode) as [n|] eqn:Hn;
      [|rewrite handleKeyDown_unmapped by done; lia].
    destruct (decide (n ∈ activeNotes c)) as [Hheld|Hfree];
      [rewrite (handleKeyDown_held c keyCode n) by done; lia|].
    rewrite (handleKeyDown_fresh c s keyCode n) by done.
    unfold voice_calls at 1 2. cbn [synth with_synth triggerAttack calls activeNotes with_activeNotes].
    rewrite attacks_app, releases_app, Hvc.
    rewrite size_union by (by apply disjoint_singleton_l).
    rewrite size_singleton.
    destruct (count_singleton (getNoteWithOctave c n)) as (-> & _ & -> & _). lia.
  - (* KeyUp *)
    destruct (getNoteFromKeyCode keyCode) as [n|] eqn:Hn;
      [|rewrite handleKeyUp_unmapped by done; lia].
    destruct (decide (n ∈ activeNotes c)) as [Hheld|Hfree];
      [|rewrite (handleKeyUp_free c keyCode n) by done; lia].
    rewrite (handleKeyUp_held c s keyCode n) by done.
    unfold voice_calls at 1 2. cbn [synth with_synth triggerRelease calls activeNotes with_activeNotes].
    rewrite attacks_app, releases_app, Hvc.
    rewrite size_difference by (by apply singleton_subseteq_l).
    rewrite size_singleton.
    assert (0 < size (activeNotes c))%nat.
    { apply Nat.neq_0_lt_0. intros Hz. apply size_empty_inv in Hz.
      apply (not_elem_of_empty (C:=gset string) n). by rewrite <- (leibniz_equiv _ _ Hz). }
    destruct (count_singleton (getNoteWithOctave c n)) as (_ & -> & _ & ->). lia.
  - unfold onMouseDown. rewrite Hs. unfold voice_calls at 1 2.
    cbn [synth with_synth triggerAttack triggerRelease calls activeNotes].
    rewrite attacks_app, releases_app, Hvc.
    destruct (count_singleton (getNoteWithOctave c note)) as (-> & _ & -> & _). lia.
  - unfold onMouseUp. rewrite Hs. unfold voice_calls at 1 2.
    cbn [synth with_synth triggerAttack triggerRelease calls activeNotes].
    rewrite attacks_app, releases_app, Hvc.
    destruct (count_singleton (getNoteWithOctave c note)) as (_ & -> & _ & ->). lia.
  - unfold onTouchStart. rewrite Hs. unfold voice_calls at 1 2.
    cbn [synth with_synth triggerAttack triggerRelease calls activeNotes].
    rewrite attacks_app, releases_app, Hvc.
    destruct (count_singleton (getNoteWithOctave c note)) as (-> & _ & -> & _). lia.
  - unfold onTouchEnd. rewrite Hs. unfold voice_calls at 1 2.
    cbn [synth with_synth triggerAttack triggerRelease calls activeNotes].
    rewrite attacks_app, releases_app, Hvc.
    destruct (count_singleton (getNoteWithOctave c note)) as (_ & -> & _ & ->). lia.
  - change (voice_calls (handleOctaveChange direction c)) with (voice_calls c).
    change (activeNotes (handleOctaveChange direction c)) with (activeNotes c). lia.
  - unfold runEffect. rewrite Hs. lia.
Qed.

Lemma step_activeNotes {reader : WavReader} {codec : Mp3Codec} (e : Event) (c : Component) :
  (∀ n, n ∈ activeNotes c → n ∈ keyNotes) →
  ∀ n, n ∈ activeNotes (step e c) → n ∈ keyNotes.
Proof.
  intros Hsub n.
  destruct (isRecordingEvent e) eqn:Hrec.
  { pose proof (step_recording_noteSide e c Hrec) as Hside.
    injection Hside as _ -> _. apply Hsub. }
  destruct e; try discriminate; cbn [step];
    unfold handleKeyDown, handleKeyUp, onMouseDown, onMouseUp, onTouchStart, onTouchEnd,
      handleOctaveChange, runEffect;
    repeat case_match; cbn; try apply Hsub.
  - rewrite elem_of_union, elem_of_singleton. intros [->|?]; [|by apply Hsub].
    by eapply getNoteFromKeyCode_keyNotes.
  - rewrite elem_of_difference. intros [? _]. by apply Hsub.
Qed.

Lemma sumZ_app {A} (f : A → Z) (l1 l2 : list A) :
  sumZ f (l1 ++ l2) = sumZ f l1 + sumZ f l2.
Proof.
  induction l1 as [|x l1 IH]; [done|].
  change (f x + sumZ f (l1 ++ l2) = f x + sumZ f l1 + sumZ f l2). lia.
Qed.

Section Balance.
Context {reader : WavReader} {codec : Mp3Codec}.

Lemma run_balance (events : list Event) :
  Z.of_nat (attacks (voice_calls (run events mounted)))
  - Z.of_nat (releases (voice_calls (run events mounted)))
  - Z.of_nat (size (activeNotes (run events mounted)))
  = sumZ buttonNet events.
Proof.
  induction events as [|e events IH] using rev_ind; [by vm_compute|].
  rewrite run_app, sumZ_app. cbn [run foldl].
  destruct (mounted_runs_are_wellFormed_aux events) as (s & Hs).
  rewrite (step_balance e _ s Hs). fold (run events mounted). rewrite IH.
  cbn [sumZ foldr]. lia.
Qed.

(** X6: after any run of events from the mounted component, the attack calls
    the tone generator has received exceed the release calls by the number of
    held notes plus the net count of on-screen key presses (one per
    mouse-down or touch-start, minus one per mouse-up or touch-end).  With
    hardware keys alone, attacks minus releases is the number of held notes.
    Every held note is a note of the key table, so at most 11 are held. *)
Theorem attacks_balance_releases (events : list Event) :
  Z.of_nat (attacks (voice_calls (run events mounted)))
  - Z.of_nat (releases (voice_calls (run events mounted)))
  = Z.of_nat (size (activeNotes (run events mounted))) + sumZ buttonNet events
  ∧ (∀ n, n ∈ activeNotes (run events mounted) → n ∈ keyNotes)
  ∧ (size (activeNotes (run events mounted)) ≤ 11)%nat.
Proof.
  assert (Hsub : ∀ n, n ∈ activeNotes (run events mounted) → n ∈ keyNotes).
  { apply (run_invariant (λ c, ∀ n, n ∈ activeNotes c → n ∈ keyNotes)).
    - intros e c. apply step_activeNotes.
    - intros n Hn. cbn in Hn. by apply not_elem_of_empty in Hn. }
  split; [|split; [done|]].
  - pose proof (run_balance events). lia.
  - transitivity (size (list_to_set (C:=gset string) keyNotes)).
    + apply subseteq_size. intros n Hn. apply elem_of_list_to_set. by apply Hsub.
    + by vm_compute.
Qed.

End Balance.

(** ** Recorders and chunks over a run *)

Section Recorders.
Context {reader : WavReader} {codec : Mp3Codec}.

Lemma step_recorders (e : Event) (c : Component) (r : nat) :
  (r < length (recorders c))%nat → mediaRecorder c ≠ Some r →
  (r < length (recorders (step e c)))%nat
  ∧ mediaRecorder (step e c) ≠ Some r
  ∧ recorders (step e c) !! r = recorders c !! r.
Proof.
  intros Hlt Hcur.
  destruct (isNoteEvent e) eqn:Hnote.
  { pose proof (step_note_recordingSide e c Hnote) as Hside.
    injection Hside as _ -> _ _ -> _. done. }
  destruct e; try discriminate; cbn [step].
  - unfold startRecording.
    assert (recorders (initializeAudioContext c) = recorders c
            ∧ mediaRecorder (initializeAudioContext c) = mediaRecorder c) as (Ir & Im).
    { unfold initializeAudioContext. by destruct (audioContext c) as [[]|]. }
    destruct (synth (initializeAudioContext c)); cbn [fst mediaRecorder recorders];
      rewrite ?Ir, ?Im; [|auto].
    rewrite length_app. split; [lia|]. split; [intros [= Heq]; lia|].
    by rewrite lookup_app_l.
  - unfold stopRecording. destruct (mediaRecorder c) as [k|] eqn:Hk.
    + cbn [mediaRecorder recorders]. rewrite length_alter. split; [done|]. split; [done|].
      apply list_lookup_alter_ne. congruence.
    + rewrite Hk. done.
  - done.
  - done.
  - unfold runEffect. by destruct (synth c).
Qed.

(** X7: a recorder that is not the current one is out of reach: no run of
    events changes it.  [stopRecording] stops the current recorder only, and
    a later [startRecording] makes a new recorder current, never an earlier
    one; so a recorder replaced while it was recording stays recording. *)
Theorem replaced_recorder_is_out_of_reach (events : list Event) (c : Component) (r : nat) :
  (r < length (recorders c))%nat → mediaRecorder c ≠ Some r →
  recorders (run events c) !! r = recorders c !! r
  ∧ mediaRecorder (run events c) ≠ Some r.
Proof.
  revert c. induction events as [|e events IH]; intros c Hlt Hcur; [done|].
  rewrite run_cons.
  destruct (step_recorders e c r Hlt Hcur) as (Hlt' & Hcur' & Hsame).
  destruct (IH (step e c) Hlt' Hcur') as (IH1 & IH2). by rewrite IH1.
Qed.

Lemma sinceLastStop_run (events : list Event) (c : Component) :
  audioChunks (run events c)
  = (if existsb isStop events then [] else audioChunks c) ++ sinceLastStop events.
Proof.
  revert c. induction events as [|e events IH]; intros c.
  - cbn. by rewrite app_nil_r.
  - rewrite run_cons, IH.
    destruct (isNoteEvent e) eqn:Hnote.
    { pose proof (step_note_recordingSide e c Hnote) as Hside.
      injection Hside as _ _ -> _ _ _. by destruct e. }
    destruct e; try discriminate; cbn [step existsb isStop sinceLastStop orb].
    + replace (audioChunks (startRecording c).1) with (audioChunks c); [done|].
      destruct (initializeAudioContext_frame c) as (Is & _ & _ & Ic & _).
      unfold startRecording. rewrite Is, Ic. by destruct (synth c).
    + by rewrite stopRecording_audioChunks.
    + destruct (existsb isStop events); [done|]. cbn. by rewrite <- app_assoc.
    + by destruct (existsb isStop events).
    + unfold runEffect. by destruct (synth c).
Qed.

(** X8: after a run of events the chunk sequence holds the chunks delivered
    since the last [stop] event of the run, in delivery order, after those it
    held before the run when the run has no [stop] event; the raw buffer a
    [stop] event then builds is their concatenation.  Neither
    [startRecording] nor [stopRecording] clears or reorders anything: only
    the [stop] event empties the sequence. *)
Theorem audioChunks_after_run (events : list Event) (c : Component) :
  audioChunks (run events c)
  = (if existsb isStop events then [] else audioChunks c) ++ sinceLastStop events
  ∧ snd (fst (onstop (run events c)))
    = concat ((if existsb isStop events then [] else audioChunks c)
              ++ sinceLastStop events)
  ∧ audioChunks (run (events ++ [Stop]) c) = [].
Proof.
  split; [apply sinceLastStop_run|]. split.
  - unfold onstop. cbn [fst snd]. by rewrite sinceLastStop_run.
  - by rewrite run_app.
Qed.

End Recorders.

Lemma replaced_recorder_is_out_of_reach_witness :
  recorders (@run specReader echoCodec
               [StopRecording; Stop; StartRecording; StopRecording; KeyDown 65]
               (fst (startRecording recordingOnce))) !! 0%nat
  = Some {| rec_stream := 0; rec_state := Recording |}.
Proof.
  destruct (@replaced_recorder_is_out_of_reach specReader echoCodec
              [StopRecording; Stop; StartRecording; StopRecording; KeyDown 65]
              (fst (startRecording recordingOnce)) 0%nat) as (Hsame & _).
  - cbn. lia.
  - discriminate.
  - rewrite Hsame. reflexivity.
Defined.

Lemma note_and_recording_sides_independent_witness :
  recordingSide (@run specReader echoCodec
                   [KeyDown 65; OctaveChange "up"; MouseDown "D"; KeyUp 65] recordingOnce)
  = recordingSide recordingOnce
  ∧ noteSide (@run specReader echoCodec
                [StartRecording; DataAvailable [x00]; StopRecording; Stop] holdingC)
    = noteSide holdingC.
Proof.
  split.
  - apply (@note_and_recording_sides_independent specReader echoCodec
             [KeyDown 65; OctaveChange "up"; MouseDown "D"; KeyUp 65] recordingOnce).
    reflexivity.
  - apply (@note_and_recording_sides_independent specReader echoCodec
             [StartRecording; DataAvailable [x00]; StopRecording; Stop] holdingC).
    reflexivity.
Defined.

(** ** Key repeat *)

Lemma handleKeyDown_idem (keyCode : Z) (c : Component) :
  handleKeyDown keyCode (handleKeyDown keyCode c) = handleKeyDown keyCode c.
Proof.
  destruct (getNoteFromKeyCode keyCode) as [n|] eqn:Hn;
    [|by rewrite !handleKeyDown_unmapped].
  destruct (decide (n ∈ activeNotes c)) as [Hheld|Hfree].
  - by rewrite !(handleKeyDown_held c keyCode n).
  - destruct (synth c) as [s|] eqn:Hs.
    + rewrite (handleKeyDown_fresh c s keyCode n) by done.
      apply (handleKeyDown_held _ keyCode n); [done|].
      by apply elem_of_union_l, elem_of_singleton.
    + assert (Hid : handleKeyDown keyCode c = c)
        by (unfold handleKeyDown; by rewrite Hn, Hs).
      by rewrite !Hid.
Qed.

Lemma handleKeyUp_idem (keyCode : Z) (c : Component) :
  handleKeyUp keyCode (handleKeyUp keyCode c) = handleKeyUp keyCode c.
Proof.
  destruct (getNoteFromKeyCode keyCode) as [n|] eqn:Hn;
    [|by rewrite !handleKeyUp_unmapped].
  destruct (decide (n ∈ activeNotes c)) as [Hheld|Hfree].
  - destruct (synth c) as [s|] eqn:Hs.
    + rewrite (handleKeyUp_held c s keyCode n) by done.
      apply (handleKeyUp_free _ keyCode n); [done|].
      cbn. apply not_elem_of_difference. right. by apply elem_of_singleton.
    + assert (Hid : handleKeyUp keyCode c = c)
        by (unfold handleKeyUp; by rewrite Hn, Hs).
      by rewrite !Hid.
  - by rewrite !(handleKeyUp_free c keyCode n).
Qed.

Lemma run_replicate_idem {reader : WavReader} {codec : Mp3Codec} (e : Event) :
  (∀ c, step e (step e c) = step e c) →
  ∀ n c, run (replicate (S n) e) c = step e c.
Proof.
  intros Hidem n. induction n as [|n IH]; intros c; [done|].
  change (replicate (S (S n)) e) with (e :: replicate (S n) e).
  by rewrite run_cons, IH, Hidem.
Qed.

(** X9: key repeat is absorbed.  Any number of key-down events in a row for
    one key code, mapped or not, leaves the component as the first of them
    does, and likewise for key-up events: the tone generator gets at most
    one call however long the key repeats. *)
Theorem key_repeat_is_absorbed
    {reader : WavReader} {codec : Mp3Codec} (n : nat) (keyCode : Z) (c : Component) :
  run (replicate (S n) (KeyDown keyCode)) c = handleKeyDown keyCode c
  ∧ run (replicate (S n) (KeyUp keyCode)) c = handleKeyUp keyCode c.
Proof.
  split.
  - apply (run_replicate_idem (KeyDown keyCode)). intros c'. apply handleKeyDown_idem.
  - apply (run_replicate_idem (KeyUp keyCode)). intros c'. apply handleKeyUp_idem.
Qed.

(** ** The frames returned *)

Lemma concat_filter_nonempty {A} (l : list (list A)) :
  concat (filter (λ b, (0 < length b)%nat) l) = concat l.
Proof.
  induction l as [|b l IH]; [done|]. rewrite filter_cons.
  destruct (decide _) as [Hb|Hb]; cbn; rewrite IH; [done|].
  destruct b; [done|]. cbn in Hb. lia.
Qed.

Lemma length_rawOutputs {codec : Mp3Codec} (enc : Mp3Encoder) (chunks : list (list Z)) :
  length (rawOutputs enc chunks) = S (length chunks).
Proof.
  revert enc. induction chunks as [|ch chunks IH]; intros enc; [done|].
  cbn. by rewrite IH.
Qed.

(** X10: the sequence [encodeSamples] returns never contains an empty
    buffer; its concatenation is the concatenation of everything the block
    encoder and the flush returned, so leaving the empty outputs out loses no
    byte and keeps the order; and it has at most one frame per chunk plus one
    for the flush. *)
Theorem encodeSamples_frames {codec : Mp3Codec} (enc : Mp3Encoder) (samples : list Z) :
  Forall (λ b, b ≠ []) (encodeSamples enc samples)
  ∧ concat (encodeSamples enc samples) = concat (rawOutputs enc (blocks samples))
  ∧ (length (encodeSamples enc samples) ≤ S (blockCount (length samples)))%nat.
Proof.
  rewrite encodeSamples_rawOutputs. split; [|split].
  - apply Forall_forall. intros b Hb. apply list_elem_of_filter in Hb as [Hlen _].
    intros ->. cbn in Hlen. lia.
  - apply concat_filter_nonempty.
  - etransitivity; [apply length_filter|]. by rewrite length_rawOutputs, length_blocks.
Qed.

(** ** The samples handed to the encoder *)

Lemma elem_of_concat_1 {A} (l : list (list A)) (chunk : list A) (x : A) :
  chunk ∈ l → x ∈ chunk → x ∈ concat l.
Proof.
  induction l as [|b l IH]; intros Hchunk Hx; [by apply elem_of_nil in Hchunk|].
  cbn. apply elem_of_app. apply elem_of_cons in Hchunk as [->|Hchunk]; [by left|].
  right. by apply IH.
Qed.

Lemma u8_range (b : byte) : 0 ≤ u8 b ≤ 255.
Proof. unfold u8. pose proof (Byte.to_N_bounded b). lia. Qed.

(** X11: when the header is read, the encoder is handed one sample per byte of
    the whole buffer, header bytes included, whatever data offset and data
    length the header gives: the chunks fed to the block encoder concatenate
    to the buffer's bytes, there is one chunk per 1152 bytes of buffer
    (rounded up), and every sample is between 0 and 255. *)
Theorem convertToMp3_feeds_every_byte
    {reader : WavReader} {codec : Mp3Codec} (wavBuffer : list byte) (wav : WavHeader) :
  readHeader wavBuffer = Ok wav →
  convertToMp3 wavBuffer
  = Ok (filter (λ b, (0 < length b)%nat)
          (rawOutputs (newMp3Encoder 1 (sampleRate wav) 128) (blocks (u8 <$> wavBuffer))))
  ∧ concat (blocks (u8 <$> wavBuffer)) = u8 <$> wavBuffer
  ∧ length (blocks (u8 <$> wavBuffer)) = blockCount (length wavBuffer)
  ∧ Forall (Forall (λ x, 0 ≤ x ≤ 255)) (blocks (u8 <$> wavBuffer)).
Proof.
  intros Hwav. split; [|split; [|split]].
  - unfold convertToMp3. rewrite Hwav. by rewrite encodeSamples_rawOutputs.
  - apply concat_blocks.
  - by rewrite length_blocks, length_fmap.
  - apply Forall_forall. intros chunk Hchunk. apply Forall_forall. intros x Hx.
    assert (Hin : x ∈ concat (blocks (u8 <$> wavBuffer)))
      by (by apply (elem_of_concat_1 _ chunk)).
    rewrite concat_blocks in Hin. apply list_elem_of_fmap in Hin as (b & -> & _).
    apply u8_range.
Qed.

Lemma convertToMp3_feeds_every_byte_witness :
  blocks (u8 <$> stereoWav) = [u8 <$> stereoWav]
  ∧ length (u8 <$> stereoWav) = 48%nat
  ∧ @convertToMp3 specReader echoCodec stereoWav = Ok [stereoWav].
Proof.
  destruct (@convertToMp3_feeds_every_byte specReader echoCodec stereoWav _ parse_stereoWav)
    as (Hconv & _ & _ & _).
  split; [by vm_compute|]. split; [by vm_compute|].
  rewrite Hconv. by vm_compute.
Defined.

(** ** Pitch labels *)

(** A decimal numeral starts with a digit or a minus sign, so not with a
    sharp sign. *)
Lemma pretty_N_go_head (x : N) (s : string) :
  (0 < x)%N → ∃ d rest, pretty_N_go x s = String (pretty_N_char d) rest.
Proof.
  revert s. induction (N.lt_wf_0 x) as [x _ IH]; intros s Hx.
  rewrite pretty_N_go_step by done.
  destruct (decide (x `div` 10 = 0)%N) as [Hz|Hnz].
  - rewrite Hz, pretty_N_go_0. eauto.
  - apply IH; [by apply N.div_lt | by apply N.neq_0_lt_0].
Qed.

Lemma pretty_Z_not_sharp (z : Z) (rest : string) : pretty z ≠ String "#"%char rest.
Proof.
  assert (Hchar : ∀ d, pretty_N_char d ≠ "#"%char)
    by (intros d; unfold pretty_N_char; by repeat case_match).
  assert (Hpos : ∀ p r, pretty (N.pos p) ≠ String "#"%char r).
  { intros p r. unfold pretty, pretty_N.
    destruct (decide (N.pos p = 0)%N) as [|_]; [done|].
    destruct (pretty_N_go_head (N.pos p) "") as (d & r' & ->); [done|].
    intros [= Hd _]. by apply (Hchar d). }
  destruct z as [|p|p]; [done| apply Hpos | done].
Qed.

(** X12: a pitch label names one note and one octave.  If two notes of the
    key table, each with the octave of some component, get the same label,
    then they are the same note and the octaves are equal. *)
Theorem getNoteWithOctave_unambiguous
    (c1 c2 : Component) (k1 k2 : Z) (n1 n2 : string) :
  getNoteFromKeyCode k1 = Some n1 → getNoteFromKeyCode k2 = Some n2 →
  getNoteWithOctave c1 n1 = getNoteWithOctave c2 n2 →
  n1 = n2 ∧ octave (settings c1) = octave (settings c2).
Proof.
  intros H1 H2 Heq.
  apply getNoteFromKeyCode_keyNotes in H1, H2.
  assert (Hsame : n1 = n2).
  { unfold getNoteWithOctave in Heq.
    revert H1 H2 Heq.
    generalize (pretty (octave (settings c1))) (pretty_Z_not_sharp (octave (settings c1))).
    generalize (pretty (octave (settings c2))) (pretty_Z_not_sharp (octave (settings c2))).
    intros p2 Hp2 p1 Hp1 H1 H2 Heq.
    change keyNotes with ["C"; "D"; "E"; "F"; "G"; "A"; "B"; "C#"; "D#"; "F#"; "G#"] in H1, H2.
    rewrite !elem_of_cons, elem_of_nil in H1. rewrite !elem_of_cons, elem_of_nil in H2.
    destruct_or!; subst; try done; cbn in Heq; injection Heq as Heq;
      first [ by destruct (Hp1 _ Heq) | by destruct (Hp2 _ (eq_sym Heq)) ]. }
  split; [done|]. subst n2. by apply (getNoteWithOctave_inj c1 c2 n1).
Qed.

Lemma getNoteWithOctave_unambiguous_witness :
  "C#" = "C#" ∧ octave (settings mounted) = octave (settings recordingOnce).
Proof.
  apply (getNoteWithOctave_unambiguous mounted recordingOnce 75 75 "C#" "C#"
           eq_refl eq_refl eq_refl).
Defined.

(** ** Two keys at once *)

(** X13: two different mapped keys are tracked independently.  Pressing one,
    then the other, then releasing the first, then the second, from a state
    where neither note is held, adds attack, attack, release, release, each
    for its own pitch and in that order, and the held-note set is back to
    what it was. *)
Theorem two_keys_interleaved
    (c : Component) (s : Synth) (k1 k2 : Z) (n1 n2 : string) :
  getNoteFromKeyCode k1 = Some n1 → getNoteFromKeyCode k2 = Some n2 → k1 ≠ k2 →
  synth c = Some s → n1 ∉ activeNotes c → n2 ∉ activeNotes c →
  voice_calls (handleKeyUp k2 (handleKeyUp k1 (handleKeyDown k2 (handleKeyDown k1 c))))
  = voice_calls c ++ [TriggerAttack (getNoteWithOctave c n1);
                      TriggerAttack (getNoteWithOctave c n2);
                      TriggerRelease (getNoteWithOctave c n1);
                      TriggerRelease (getNoteWithOctave c n2)]
  ∧ activeNotes (handleKeyUp k2 (handleKeyUp k1 (handleKeyDown k2 (handleKeyDown k1 c))))
    = activeNotes c.
Proof.
  intros H1 H2 Hk Hs Hf1 Hf2.
  assert (Hn : n1 ≠ n2).
  { intros ->. apply Hk. by apply (getNoteFromKeyCode_inj k1 k2 n2). }
  rewrite (handleKeyDown_fresh c s k1 n1) by done.
  rewrite (handleKeyDown_fresh _ (triggerAttack (getNoteWithOctave c n1) s) k2 n2);
    [|done|done|].
  2:{ cbn. rewrite elem_of_union, elem_of_singleton. intros [?|?]; congruence. }
  rewrite (handleKeyUp_held _ (triggerAttack (getNoteWithOctave c n2)
                                 (triggerAttack (getNoteWithOctave c n1) s)) k1 n1);
    [|done|done|].
  2:{ cbn. rewrite !elem_of_union, !elem_of_singleton. tauto. }
  rewrite (handleKeyUp_held _ (triggerRelease (getNoteWithOctave c n1)
                                 (triggerAttack (getNoteWithOctave c n2)
                                    (triggerAttack (getNoteWithOctave c n1) s))) k2 n2);
    [|done|done|].
  2:{ cbn. rewrite elem_of_difference, !elem_of_union, !elem_of_singleton.
      split; [tauto|congruence]. }
  unfold voice_calls. rewrite Hs. cbn. split.
  - by rewrite <- !app_assoc.
  - apply set_eq. intros x.
    rewrite !elem_of_difference, !elem_of_union, !elem_of_singleton.
    split; [tauto|]. intros Hx. repeat split; [tauto| |]; by intros ->.
Qed.

Lemma two_keys_interleaved_witness :
  voice_calls (handleKeyUp 83 (handleKeyUp 65 (handleKeyDown 83 (handleKeyDown 65 mounted))))
  = [TriggerAttack "C4"; TriggerAttack "D4"; TriggerRelease "C4"; TriggerRelease "D4"]
  ∧ activeNotes (handleKeyUp 83 (handleKeyUp 65 (handleKeyDown 83 (handleKeyDown 65 mounted))))
    = activeNotes mounted.
Proof.
  apply (two_keys_interleaved mounted {| calls := []; outputs := [] |} 65 83 "C" "D"
           eq_refl eq_refl); [discriminate | reflexivity | |]; apply not_elem_of_empty.
Defined.

(** ** A recording cycle *)

Lemma capturing_stopRecording (c : Component) : capturing (stopRecording c) = false.
Proof.
  unfold stopRecording, capturing. destruct (mediaRecorder c) as [r|] eqn:Hr.
  - cbn [mediaRecorder recorders]. rewrite ?Hr, list_lookup_alter_eq.
    by destruct (recorders c !! r).
  - by rewrite ?Hr.
Qed.

(** X14: in any component reached from the mounted one, [startRecording]
    makes the session capturing, on a recorder created by that call, and
    [stopRecording] ends capturing; after a stop the next start captures
    again, on yet another recorder.  [stopRecording] ends capturing in any
    component, also when nothing was recording. *)
Theorem recording_cycle
    {reader : WavReader} {codec : Mp3Codec} (events : list Event) :
  capturing (run (events ++ [StartRecording]) mounted) = true
  ∧ mediaRecorder (run (events ++ [StartRecording]) mounted)
    = Some (length (recorders (run events mounted)))
  ∧ capturing (run (events ++ [StartRecording; StopRecording]) mounted) = false
  ∧ capturing (run (events ++ [StartRecording; StopRecording; StartRecording]) mounted) = true
  ∧ (∀ c, capturing (stopRecording c) = false).
Proof.
  assert (Hstart : ∀ ev, capturing (run (ev ++ [StartRecording]) mounted) = true
                         ∧ mediaRecorder (run (ev ++ [StartRecording]) mounted)
                           = Some (length (recorders (run ev mounted)))).
  { intros ev. rewrite run_app. cbn [run foldl step].
    destruct (mounted_runs_are_wellFormed_aux ev) as (s & Hs).
    destruct (initializeAudioContext_frame (run ev mounted)) as (Is & _ & Ir & _).
    unfold startRecording, capturing. rewrite Is, Hs, Ir. cbn [fst mediaRecorder recorders].
    rewrite lookup_app_r by lia. by rewrite Nat.sub_diag. }
  split; [apply Hstart|]. split; [apply Hstart|]. split; [|split].
  - change [StartRecording; StopRecording] with ([StartRecording] ++ [StopRecording]).
    rewrite app_assoc, run_app. apply capturing_stopRecording.
  - change [StartRecording; StopRecording; StartRecording]
      with ([StartRecording; StopRecording] ++ [StartRecording]).
    rewrite app_assoc. apply Hstart.
  - apply capturing_stopRecording.
Qed.
